(** * portscan: the port-specification expander and the scan engine

    A shallow embedding of [cmd/portscan/main.go].

    - Go strings are byte sequences: [list ascii].
    - Go [int] values are [Z]; every port that survives [parseSinglePort]
      lies in 1..65535, so no arithmetic of the program wraps around.
    - A function returning [(T, error)] returns a [result T]; the error
      values are the constructors of [error], one per [fmt.Errorf] call.
    - [map[int]struct{}] is a [gset Z].
    - Goroutines and channels are a step relation on an explicit state. *)

From Stdlib Require Import ZArith List Ascii String Lia.
From stdpp Require Import base list sorting gmap.

Local Open Scope char_scope.
Local Open Scope Z_scope.

(** ** Library functions of Go used by the program *)

Module GoLib.

Abbreviation gostring := (list ascii).

(** A string literal as a Go string. *)
Definition str (s : string) : gostring := list_ascii_of_string s.

Definition byte_of (n : N) : ascii := ascii_of_N n.

(** [strings.HasPrefix]. *)
Fixpoint HasPrefix (s w : gostring) {struct w} : bool :=
  match w, s with
  | [], _ => true
  | a :: w', b :: s' => if Ascii.eqb a b then HasPrefix s' w' else false
  | _ :: _, [] => false
  end.

(** The UTF-8 encodings of the runes for which [unicode.IsSpace] holds:
    TAB, LF, VT, FF, CR, SPACE, U+0085, U+00A0, U+1680, U+2000..U+200A,
    U+2028, U+2029, U+202F, U+205F, U+3000.  Go's decoder rejects
    overlong and truncated sequences (they decode to U+FFFD, which is
    not white space), so the first rune of a string is white space
    exactly when the string starts with one of these byte sequences,
    and the last rune is white space exactly when it ends with one. *)
Definition unicodeSpace : list gostring :=
  map (map byte_of)
    [ [0x09]; [0x0A]; [0x0B]; [0x0C]; [0x0D]; [0x20];
      [0xC2; 0x85]; [0xC2; 0xA0];
      [0xE1; 0x9A; 0x80];
      [0xE2; 0x80; 0x80]; [0xE2; 0x80; 0x81]; [0xE2; 0x80; 0x82];
      [0xE2; 0x80; 0x83]; [0xE2; 0x80; 0x84]; [0xE2; 0x80; 0x85];
      [0xE2; 0x80; 0x86]; [0xE2; 0x80; 0x87]; [0xE2; 0x80; 0x88];
      [0xE2; 0x80; 0x89]; [0xE2; 0x80; 0x8A];
      [0xE2; 0x80; 0xA8]; [0xE2; 0x80; 0xA9]; [0xE2; 0x80; 0xAF];
      [0xE2; 0x81; 0x9F];
      [0xE3; 0x80; 0x80] ]%N.

(** Width in bytes of the code word of [E] the string starts with, 0
    when it starts with none. *)
Definition codeWidth (E : list gostring) (s : gostring) : nat :=
  match find (HasPrefix s) E with
  | Some w => length w
  | None => 0%nat
  end.

(** Drop code words of [E] from the front as long as there is one;
    [skip] counts the bytes of the current word still to drop. *)
Fixpoint trimCode (E : list gostring) (skip : nat) (s : gostring) : gostring :=
  match s with
  | [] => []
  | _ :: t =>
      match skip with
      | S k => trimCode E k t
      | O => match codeWidth E s with
             | O => s
             | S k => trimCode E k t
             end
      end
  end.

(** [strings.TrimLeftFunc(s, unicode.IsSpace)]. *)
Definition TrimLeftSpace (s : gostring) : gostring :=
  trimCode unicodeSpace 0 s.

(** [strings.TrimRightFunc(s, unicode.IsSpace)]: the same scan from the
    end of the string, over the reversed encodings. *)
Definition TrimRightSpace (s : gostring) : gostring :=
  rev (trimCode (map (@rev ascii) unicodeSpace) 0 (rev s)).

(** [strings.TrimSpace]: leading and trailing white space removed. *)
Definition TrimSpace (s : gostring) : gostring :=
  TrimRightSpace (TrimLeftSpace s).

(** [strings.Contains(s, sep)] for a one-byte [sep]. *)
Definition Contains (s : gostring) (sep : ascii) : bool :=
  existsb (Ascii.eqb sep) s.

(** [strings.Cut(s, sep)] for a one-byte [sep]: the text before and
    after the first [sep]. *)
Fixpoint Cut (s : gostring) (sep : ascii) : option (gostring * gostring) :=
  match s with
  | [] => None
  | c :: t =>
      if Ascii.eqb c sep then Some ([], t)
      else match Cut t sep with
           | Some (l, r) => Some (c :: l, r)
           | None => None
           end
  end.

(** [strings.SplitN(s, sep, n)] for a one-byte [sep] and [n >= 0]: at
    most [n] substrings, the last one the unsplit remainder. *)
Fixpoint SplitN (s : gostring) (sep : ascii) (n : nat) : list gostring :=
  match n with
  | O => []
  | S O => [s]
  | S n' =>
      match Cut s sep with
      | Some (l, r) => l :: SplitN r sep n'
      | None => [s]
      end
  end.

(** [strings.Split(s, sep)] for a one-byte [sep]: all substrings
    between separators; never the empty list. *)
Fixpoint Split (s : gostring) (sep : ascii) : list gostring :=
  match s with
  | [] => [[]]
  | c :: t =>
      if Ascii.eqb c sep then [] :: Split t sep
      else match Split t sep with
           | hd :: tl => (c :: hd) :: tl
           | [] => [[c]]
           end
  end.

(** [strings.Join(elems, sep)] for a one-byte [sep]. *)
Fixpoint Join (elems : list gostring) (sep : ascii) : gostring :=
  match elems with
  | [] => []
  | [e] => e
  | e :: rest => e ++ sep :: Join rest sep
  end.

(** Value of a decimal digit. *)
Definition digitVal (c : ascii) : option Z :=
  let n := Z.of_N (N_of_ascii c) in
  if (48 <=? n) && (n <=? 57) then Some (n - 48) else None.

Fixpoint parseDigits (acc : Z) (s : gostring) : option Z :=
  match s with
  | [] => Some acc
  | c :: t =>
      match digitVal c with
      | Some d => parseDigits (acc * 10 + d) t
      | None => None
      end
  end.

(** Go's [int] is 64 bits wide on the platforms the program targets. *)
Definition intSize : Z := 64.
Definition minInt : Z := - 2 ^ (intSize - 1).
Definition maxInt : Z := 2 ^ (intSize - 1) - 1.

Definition signedDigits (sign : Z) (ds : gostring) : option Z :=
  match ds with
  | [] => None
  | _ :: _ =>
      match parseDigits 0 ds with
      | Some n =>
          let v := sign * n in
          if (minInt <=? v) && (v <=? maxInt) then Some v else None
      | None => None
      end
  end.

(** [strconv.Atoi]: an optional sign, then one or more decimal digits,
    the value within [int]; [None] stands for both of its errors
    (syntax and range), which the program does not tell apart. *)
Definition Atoi (s : gostring) : option Z :=
  match s with
  | [] => None
  | c :: t =>
      if Ascii.eqb c "-" then signedDigits (-1) t
      else if Ascii.eqb c "+" then signedDigits 1 t
      else signedDigits 1 s
  end.

(** [strconv.Itoa]: shortest decimal rendering. *)
Definition digitChar (d : Z) : ascii := ascii_of_N (Z.to_N (48 + d)).

Fixpoint itoaDigits (fuel : nat) (n : Z) (acc : gostring) : gostring :=
  match fuel with
  | O => acc
  | S f =>
      let acc' := digitChar (n mod 10) :: acc in
      if n <? 10 then acc' else itoaDigits f (n / 10) acc'
  end.

Definition Itoa (n : Z) : gostring :=
  if n <? 0 then "-"%char :: itoaDigits (S (Z.to_nat (- n))) (- n) []
  else itoaDigits (S (Z.to_nat n)) n [].

(** [sort.Ints]: the ascending rearrangement of the slice. *)
Definition sortInts (l : list Z) : list Z := merge_sort Z.le l.

End GoLib.

Import GoLib.

(** ** The port-specification expander *)

Inductive error : Type :=
  | EmptyPortToken                                   (* "empty port token" *)
  | InvalidPort (token : gostring)                   (* "invalid port %q" *)
  | PortOutOfRange (n : Z)                           (* "port out of range: %d" *)
  | EmptyRangeToken                                  (* "empty range token" *)
  | InvalidRangeNeedAB (token : gostring)            (* "invalid range %q (need A-B)" *)
  | InvalidRangeBounds (token : gostring)            (* "invalid range bounds in %q" *)
  | InvalidLeftBound (left : gostring) (err : error) (* "invalid left bound %q: %w" *)
  | InvalidRightBound (right : gostring) (err : error) (* "invalid right bound %q: %w" *)
  | RangeStartGtEnd (token : gostring)               (* "range start > end in %q" *)
  | EmptyPortsSpec                                   (* "empty ports spec" *)
  | EmptyTokenAt (i : nat)                           (* "empty token at position %d" *)
  | InvalidRangeTok (tok : gostring) (err : error)   (* "invalid range %q: %w" *)
  | InvalidPortTok (tok : gostring) (err : error).   (* "invalid port %q: %w" *)

(** A Go return [(v, nil)] is [Ok v]; a return [(zero, err)] is [Err err]:
    on the error path the value returned is the zero value (0, or the
    nil slice), never a partial result. *)
Inductive result (A : Type) : Type :=
  | Ok (v : A)
  | Err (e : error).
Arguments Ok {A} v.
Arguments Err {A} e.

Definition is_empty (s : gostring) : bool :=
  match s with [] => true | _ :: _ => false end.

Definition parseSinglePort (token : gostring) : result Z :=
  let token := TrimSpace token in
  if is_empty token then Err EmptyPortToken
  else match Atoi token with
       | None => Err (InvalidPort token)
       | Some n =>
           if (1 <=? n) && (n <=? 65535) then Ok n
           else Err (PortOutOfRange n)
       end.

Definition parsePortRange (token : gostring) : result (Z * Z) :=
  let token := TrimSpace token in
  if is_empty token then Err EmptyRangeToken
  else match SplitN token "-" 2 with
       | [p0; p1] =>
           let left := TrimSpace p0 in
           let right := TrimSpace p1 in
           if is_empty left || is_empty right then Err (InvalidRangeBounds token)
           else match parseSinglePort left with
                | Err err => Err (InvalidLeftBound left err)
                | Ok start =>
                    match parseSinglePort right with
                    | Err err => Err (InvalidRightBound right err)
                    | Ok end_ =>
                        if end_ <? start then Err (RangeStartGtEnd token)
                        else Ok (start, end_)
                    end
                end
       | _ => Err (InvalidRangeNeedAB token)
       end.

(** The loop over [tokens] of [expandPortSpec]; [i] is the index of the
    head of [tokens], [singles] and [ranges] the slices built so far. *)
Fixpoint parseTokens (i : nat) (tokens : list gostring)
    (singles : list Z) (ranges : list (Z * Z)) : result (list Z * list (Z * Z)) :=
  match tokens with
  | [] => Ok (singles, ranges)
  | tok :: rest =>
      let tok := TrimSpace tok in
      if is_empty tok then Err (EmptyTokenAt i)
      else if Contains tok "-" then
        match parsePortRange tok with
        | Err err => Err (InvalidRangeTok tok err)
        | Ok (start, end_) => parseTokens (S i) rest singles (ranges ++ [(start, end_)])
        end
      else
        match parseSinglePort tok with
        | Err err => Err (InvalidPortTok tok err)
        | Ok n => parseTokens (S i) rest (singles ++ [n]) ranges
        end
  end.

(** [for _, n := range singles { seen[n] = struct{}{} }] *)
Definition addSingles (seen : gset Z) (singles : list Z) : gset Z :=
  foldl (fun seen n => {[ n ]} ∪ seen) seen singles.

(** [for p := start; p <= end; p++ { seen[p] = struct{}{} }] *)
Definition addRange (seen : gset Z) (rg : Z * Z) : gset Z :=
  foldl (fun seen p => {[ p ]} ∪ seen) seen (seqZ (fst rg) (snd rg - fst rg + 1)).

Definition addRanges (seen : gset Z) (ranges : list (Z * Z)) : gset Z :=
  foldl addRange seen ranges.

(** [for p := range seen { ports = append(ports, p) }]: Go visits the
    keys in an unspecified order; [elements] is one such order, and
    [sortInts_perm] below shows that the order does not matter once the
    slice is sorted. *)
Definition mapKeys (seen : gset Z) : list Z := elements seen.

Definition expandPortSpec (spec : gostring) : result (list Z) :=
  let spec := TrimSpace spec in
  if is_empty spec then Err EmptyPortsSpec
  else
    let tokens := Split spec "," in
    match parseTokens 0 tokens [] [] with
    | Err err => Err err
    | Ok (singles, ranges) =>
        let seen := addRanges (addSingles ∅ singles) ranges in
        Ok (sortInts (mapKeys seen))
    end.

(** ** The scan engine

    The goroutines of [main] as a transition system.  One step is one
    channel operation, one probe outcome, or the end of a goroutine.  A
    buffered channel is a FIFO queue bounded by its capacity; a send
    needs room, a receive needs an element, and [range] over a channel
    ends when the channel is closed and empty.  The outcome of
    [scanPort] depends on the network and is left open: a probe step may
    go either way. *)

Module Scan.

(** Where a [worker] goroutine stands. *)
Inductive wstate : Type :=
  | Receiving            (* at [for p := range ports] *)
  | Probing (p : Z)      (* in [scanPort(host, p, timeout)] *)
  | Sending (p : Z)      (* at [results <- p] *)
  | Done.                (* returned; the deferred [wg.Done()] has run *)

#[global] Instance wstate_eq_dec : EqDecision wstate.
Proof. solve_decision. Defined.

Record state : Type := mkState {
  feed : list Z;            (* ports the feeding goroutine has yet to send *)
  ports_ch : list Z;        (* buffer of [ports], oldest first *)
  ports_closed : bool;
  pool : list wstate;       (* the [workers] goroutines *)
  results_ch : list Z;      (* buffer of [results], oldest first *)
  results_closed : bool;
  openPorts : list Z;       (* the accumulator of [main] *)
  returned : option (list Z) (* [openPorts] once [sort.Ints] has run *)
}.

(** The state after the goroutines have been launched: the feeder holds
    the whole plan, every worker is at its [range], both channels are
    open and empty. *)
Definition init (plan : list Z) (workers : nat) : state :=
  mkState plan [] false (replicate workers Receiving) [] false [] None.

Definition set_pool (s : state) (i : nat) (w : wstate) : list wstate :=
  <[ i := w ]> (pool s).

Inductive step (workers resbuf : nat) : state -> state -> Prop :=
  (* [ports <- p] in the feeding goroutine *)
  | feeder_send s p rest :
      feed s = p :: rest ->
      (length (ports_ch s) < workers)%nat ->
      step workers resbuf s
        (mkState rest (ports_ch s ++ [p]) (ports_closed s) (pool s)
                 (results_ch s) (results_closed s) (openPorts s) (returned s))
  (* [close(ports)] *)
  | feeder_close s :
      feed s = [] ->
      ports_closed s = false ->
      step workers resbuf s
        (mkState [] (ports_ch s) true (pool s)
                 (results_ch s) (results_closed s) (openPorts s) (returned s))
  (* [p := <-ports] in worker [i] *)
  | worker_recv s i p rest :
      pool s !! i = Some Receiving ->
      ports_ch s = p :: rest ->
      step workers resbuf s
        (mkState (feed s) rest (ports_closed s) (set_pool s i (Probing p))
                 (results_ch s) (results_closed s) (openPorts s) (returned s))
  (* [scanPort] returned [true] in worker [i] *)
  | worker_probe_open s i p :
      pool s !! i = Some (Probing p) ->
      step workers resbuf s
        (mkState (feed s) (ports_ch s) (ports_closed s) (set_pool s i (Sending p))
                 (results_ch s) (results_closed s) (openPorts s) (returned s))
  (* [scanPort] returned [false] in worker [i] *)
  | worker_probe_closed s i p :
      pool s !! i = Some (Probing p) ->
      step workers resbuf s
        (mkState (feed s) (ports_ch s) (ports_closed s) (set_pool s i Receiving)
                 (results_ch s) (results_closed s) (openPorts s) (returned s))
  (* [results <- p] in worker [i] *)
  | worker_send s i p :
      pool s !! i = Some (Sending p) ->
      (length (results_ch s) < resbuf)%nat ->
      step workers resbuf s
        (mkState (feed s) (ports_ch s) (ports_closed s) (set_pool s i Receiving)
                 (results_ch s ++ [p]) (results_closed s) (openPorts s) (returned s))
  (* [ports] closed and drained: worker [i] leaves its loop *)
  | worker_exit s i :
      pool s !! i = Some Receiving ->
      ports_ch s = [] ->
      ports_closed s = true ->
      step workers resbuf s
        (mkState (feed s) [] true (set_pool s i Done)
                 (results_ch s) (results_closed s) (openPorts s) (returned s))
  (* [wg.Wait()] returns, then [close(results)] *)
  | closer_close s :
      Forall (fun w => w = Done) (pool s) ->
      results_closed s = false ->
      step workers resbuf s
        (mkState (feed s) (ports_ch s) (ports_closed s) (pool s)
                 (results_ch s) true (openPorts s) (returned s))
  (* [openPorts = append(openPorts, p)] for the next [p] of [results] *)
  | main_recv s p rest :
      returned s = None ->
      results_ch s = p :: rest ->
      step workers resbuf s
        (mkState (feed s) (ports_ch s) (ports_closed s) (pool s)
                 rest (results_closed s) (openPorts s ++ [p]) None)
  (* [results] closed and drained: [sort.Ints(openPorts)] *)
  | main_sort s :
      returned s = None ->
      results_ch s = [] ->
      results_closed s = true ->
      step workers resbuf s
        (mkState (feed s) (ports_ch s) (ports_closed s) (pool s)
                 [] true (openPorts s) (Some (sortInts (openPorts s)))).

(** A run: any number of steps from the initial state. *)
Definition reachable (plan : list Z) (workers resbuf : nat) (s : state) : Prop :=
  rtc (step workers resbuf) (init plan workers) s.

(** The ports a worker holds. *)
Definition held (w : wstate) : list Z :=
  match w with
  | Probing p | Sending p => [p]
  | Receiving | Done => []
  end.

(** Every port that is somewhere in the system. *)
Definition in_flight (s : state) : list Z :=
  feed s ++ ports_ch s ++ concat (map held (pool s)) ++ results_ch s ++ openPorts s.

(** How many steps a port held by a worker is away from [openPorts],
    plus one for the worker's own exit. *)
Definition wweight (w : wstate) : nat :=
  match w with
  | Probing _ => 4
  | Sending _ => 3
  | Receiving => 1
  | Done => 0
  end.

Definition flag (b : bool) : nat := if b then 0 else 1.

(** An upper bound on the number of steps still to come. *)
Definition measure (s : state) : nat :=
  5 * length (feed s) + 4 * length (ports_ch s) + flag (ports_closed s)
  + sum_list (map wweight (pool s))
  + length (results_ch s) + flag (results_closed s)
  + match returned s with None => 1 | Some _ => 0 end.

(** The end of a run over the plan 443, 80 with two workers and a
    result buffer of one, in which both ports are open and 443 is
    published first. *)
Definition example_final : state :=
  mkState [] [] true [Done; Done] [] true [443; 80] (Some [80; 443]).

End Scan.

(** ** Auxiliary notions for the proofs *)

(** Concatenations of words of a code [E]. *)
Inductive Words (E : list gostring) : gostring -> Prop :=
  | Words_nil : Words E []
  | Words_cons w a : w ∈ E -> Words E a -> Words E (w ++ a).

(** Two conditions on a code that make trimming well behaved: no empty
    word, and no word a proper prefix of another. *)
Definition code_ok (E : list gostring) : bool :=
  forallb (fun w => negb (is_empty w)) E
  && forallb (fun w1 =>
       forallb (fun w2 => implb (HasPrefix w2 w1) (bool_decide (w1 = w2))) E) E.

(** No byte that starts a word occurs further inside a word (in UTF-8:
    a leading byte is never a continuation byte). *)
Definition code_lead (E : list gostring) : bool :=
  forallb (fun w =>
    forallb (fun u =>
      match u with
      | [] => true
      | c :: _ => negb (existsb (Ascii.eqb c) (tail w))
      end) E) E.

(** The encodings of white space read from the end of a string. *)
Definition unicodeSpaceRev : list gostring := map (@rev ascii) unicodeSpace.

(** Bytes that occur in an encoding of white space. *)
Definition spaceByte (c : ascii) : bool :=
  existsb (existsb (Ascii.eqb c)) unicodeSpace.

(** Strings of white space only. *)
Definition Spaces (s : gostring) : Prop := Words unicodeSpace s.

(** What one token of a specification contributes: a single port or an
    inclusive range; [None] when the loop of [expandPortSpec] returns an
    error at this token. *)
Inductive item : Type :=
  | Single (n : Z)
  | Range (start end_ : Z).

Definition tokenItem (tok : gostring) : option item :=
  let tok := TrimSpace tok in
  if is_empty tok then None
  else if Contains tok "-" then
    match parsePortRange tok with
    | Ok (start, end_) => Some (Range start end_)
    | Err _ => None
    end
  else
    match parseSinglePort tok with
    | Ok n => Some (Single n)
    | Err _ => None
    end.

Definition covers (it : item) (p : Z) : Prop :=
  match it with
  | Single n => p = n
  | Range start end_ => start <= p <= end_
  end.

(** The ports put into [seen] from the two slices. *)
Definition inSlices (singles : list Z) (ranges : list (Z * Z)) (p : Z) : Prop :=
  p ∈ singles \/ exists rg, rg ∈ ranges /\ fst rg <= p <= snd rg.

(** The ports a list of tokens denotes. *)
Definition denotes (toks : list gostring) (p : Z) : Prop :=
  exists tok it, tok ∈ toks /\ tokenItem tok = Some it /\ covers it p.

(** The canonical rendering of a port list: decimal numbers joined by
    commas. *)
Definition render (ports : list Z) : gostring := Join (map Itoa ports) ",".

Definition isDigit (c : ascii) : Prop := is_Some (digitVal c).

(** The texts of a token that must be port numbers: the token itself,
    or the two sides of its first hyphen. *)
Definition numericValues (tok : gostring) : list gostring :=
  match Cut tok "-" with
  | Some (l, r) => [l; r]
  | None => [tok]
  end.

(** The number of hyphens in a token. *)
Definition hyphens (tok : gostring) : nat := count_occ ascii_dec tok "-".

(** "The right-hand side of the first hyphen does not parse as an
    integer." *)
Definition rightSideNotInteger (tok : gostring) : Prop :=
  forall p0 p1, SplitN (TrimSpace tok) "-" 2 = [p0; p1] -> Atoi (TrimSpace p1) = None.

(** ** The pre-flight part of [main]

    The flags [main] checks before any goroutine starts, and the plan it
    builds from them.  [log.Fatalf] ends the process: the run stops at
    the first check that fails, with that message. *)

Module Main.

Record flags : Type := mkFlags {
  start : Z;            (* [-start] *)
  end_ : Z;             (* [-end] *)
  workers : Z;          (* [-workers] *)
  resbuf : Z;           (* [-resbuf] *)
  portspec : gostring   (* [-ports] *)
}.

Inductive fatal : Type :=
  | InvalidStartPort (n : Z)        (* "invalid start port: %d (must be 1..65535)" *)
  | InvalidEndPort (n : Z)          (* "invalid end port: %d (must be 1..65535)" *)
  | StartAfterEnd (s e : Z)         (* "start port (%d) must be <= end port (%d)" *)
  | WorkersNotPositive              (* "workers must be > 0" *)
  | ResbufTooSmall (n : Z)          (* "resbuf must be >= 1 (got %d)" *)
  | PortsError (err : error).       (* "ports: %v" *)

Inductive preflight : Type :=
  | Fatal (e : fatal)
  | Proceed (plan : list Z).

(** [for p := *start; p <= *end; p++ { plan = append(plan, p) }] *)
Definition rangePlan (s e : Z) : list Z := seqZ s (e - s + 1).

Definition buildPlan (f : flags) : preflight :=
  if (start f <? 1) || (65535 <? start f) then Fatal (InvalidStartPort (start f))
  else if (end_ f <? 1) || (65535 <? end_ f) then Fatal (InvalidEndPort (end_ f))
  else if end_ f <? start f then Fatal (StartAfterEnd (start f) (end_ f))
  else if workers f <=? 0 then Fatal WorkersNotPositive
  else if resbuf f <? 1 then Fatal (ResbufTooSmall (resbuf f))
  else if negb (is_empty (portspec f)) then
    match expandPortSpec (portspec f) with
    | Err err => Fatal (PortsError err)
    | Ok ps => Proceed ps
    end
  else Proceed (rangePlan (start f) (end_ f)).

(** The runs of the scan engine [main] starts with these flags. *)
Definition scans (f : flags) (plan : list Z) (s : Scan.state) : Prop :=
  buildPlan f = Proceed plan /\
  Scan.reachable plan (Z.to_nat (workers f)) (Z.to_nat (resbuf f)) s.

End Main.

(** ** Runs against a fixed network

    [scanPort] asks the network; with the network in a fixed state its
    answer is a function [open] of the port.  A step agrees with [open]
    when a worker that was probing [p] goes on to send [p] only if
    [open p], and goes back to its [range] only if not. *)

Module ScanOn.
Import Scan.

Definition probes_as (open : Z -> bool) (s s' : state) : Prop :=
  forall i p, pool s !! i = Some (Probing p) ->
    (pool s' !! i = Some (Sending p) -> open p = true) /\
    (pool s' !! i = Some Receiving -> open p = false).

Definition step_on (open : Z -> bool) (workers resbuf : nat) (s s' : state) : Prop :=
  step workers resbuf s s' /\ probes_as open s s'.

Definition reachable_on (open : Z -> bool) (plan : list Z) (workers resbuf : nat)
    (s : state) : Prop :=
  rtc (step_on open workers resbuf) (init plan workers) s.

(** The open port a worker is still probing. *)
Definition probingOpen (open : Z -> bool) (w : wstate) : list Z :=
  match w with
  | Probing p => if open p then [p] else []
  | _ => []
  end.

(** The port a worker is about to publish. *)
Definition sending (w : wstate) : list Z :=
  match w with
  | Sending p => [p]
  | _ => []
  end.

(** Open ports not yet probed to the end, and ports found open. *)
Definition openPending (open : Z -> bool) (s : state) : list Z :=
  filter (fun p => open p = true) (feed s)
  ++ filter (fun p => open p = true) (ports_ch s)
  ++ concat (map (probingOpen open) (pool s)).

Definition found (s : state) : list Z :=
  concat (map sending (pool s)) ++ results_ch s ++ openPorts s.

(** What holds of the flags and buffers all along a run. *)
Definition wellFormed (workers resbuf : nat) (s : state) : Prop :=
  length (pool s) = workers /\
  (length (ports_ch s) <= workers)%nat /\
  (length (results_ch s) <= resbuf)%nat /\
  (ports_closed s = true -> feed s = []) /\
  (Done ∈ pool s -> ports_closed s = true /\ ports_ch s = []) /\
  (results_closed s = true -> Forall (fun w => w = Done) (pool s)) /\
  (forall l, returned s = Some l -> results_closed s = true /\ results_ch s = []).

(** The end of a run over the plan 80, 443 with one worker and a result
    buffer of one, against a network where only 443 is open. *)
Definition only443 (p : Z) : bool := p =? 443.

Definition example_final_on : state :=
  mkState [] [] true [Done] [] true [443] (Some [443]).

End ScanOn.

(** The errors [parseSinglePort] returns for a text that is not blank. *)
Definition portError (e : error) : bool :=
  match e with
  | InvalidPort _ | PortOutOfRange _ => true
  | _ => false
  end.

(** The errors [parsePortRange] returns for a token with a hyphen. *)
Definition rangeError (e : error) : bool :=
  match e with
  | InvalidRangeBounds _ | RangeStartGtEnd _ => true
  | InvalidLeftBound _ err | InvalidRightBound _ err => portError err
  | _ => false
  end.

(** The errors [expandPortSpec] returns. *)
Definition specError (e : error) : bool :=
  match e with
  | EmptyPortsSpec | EmptyTokenAt _ => true
  | InvalidRangeTok _ err => rangeError err
  | InvalidPortTok _ err => portError err
  | _ => false
  end.

(** ** Trimming code words off a string *)

Section Code.

Variable E : list gostring.

Local Abbreviation Words := (Words E).

(** No code word is empty, and none is a proper prefix of another. *)
Hypothesis E_nonempty : forall w, w ∈ E -> w <> [].
Hypothesis E_prefix_free :
  forall w1 w2, w1 ∈ E -> w2 ∈ E -> w1 `prefix_of` w2 -> w1 = w2.

Lemma HasPrefix_prefix s w : HasPrefix s w = true <-> w `prefix_of` s.
Proof.
  revert s. induction w as [|a w IH]; intros s; simpl.
  - split; [intros _; apply prefix_nil | reflexivity].
  - destruct s as [|b s].
    + split; [discriminate | intros [k Hk]; discriminate].
    + destruct (Ascii.eqb_spec a b) as [->|Hab].
      * rewrite IH. split.
        -- intros H. by apply prefix_cons.
        -- intros H. by apply prefix_cons_inv_2 in H.
      * split; [discriminate |].
        intros H. apply prefix_cons_inv_1 in H. congruence.
Qed.

Lemma codeWidth_pos s k :
  codeWidth E s = S k -> exists w r, w ∈ E /\ s = w ++ r /\ length w = S k.
Proof.
  unfold codeWidth. destruct (find (HasPrefix s) E) as [w|] eqn:Hf; [|discriminate].
  intros Hlen. apply find_some in Hf as [Hin Hp].
  apply HasPrefix_prefix in Hp as [r ->].
  exists w, r. split; [by apply list_elem_of_In | done].
Qed.

Lemma codeWidth_zero s w : codeWidth E s = 0%nat -> w ∈ E -> ~ w `prefix_of` s.
Proof.
  unfold codeWidth. intros Hw Hin Hp.
  destruct (find (HasPrefix s) E) as [u|] eqn:Hf.
  - apply find_some in Hf as [Hu _]. apply list_elem_of_In in Hu.
    apply E_nonempty in Hu. by destruct u.
  - eapply find_none in Hf; [|by apply list_elem_of_In].
    apply HasPrefix_prefix in Hp. congruence.
Qed.

Lemma codeWidth_word w r : w ∈ E -> codeWidth E (w ++ r) = length w.
Proof.
  intros Hin.
  destruct (codeWidth E (w ++ r)) as [|k] eqn:Hk.
  - exfalso. eapply codeWidth_zero; [exact Hk | exact Hin | by apply prefix_app_r].
  - apply codeWidth_pos in Hk as (u & r' & Hu & Heq & Hlen).
    rewrite <- Hlen. f_equal.
    assert (Hw : w `prefix_of` w ++ r) by (by apply prefix_app_r).
    assert (Hu' : u `prefix_of` w ++ r) by (rewrite Heq; by apply prefix_app_r).
    destruct (prefix_weak_total _ _ _ Hw Hu') as [H|H].
    + symmetry. by apply E_prefix_free.
    + by apply E_prefix_free.
Qed.

Lemma codeWidth_nil : codeWidth E [] = 0%nat.
Proof.
  destruct (codeWidth E []) as [|k] eqn:Hk; [done|].
  apply codeWidth_pos in Hk as (w & r & Hw & Heq & _).
  apply E_nonempty in Hw. symmetry in Heq. apply app_eq_nil in Heq as [? _]. done.
Qed.

(** A string that starts with no code word keeps doing so when cut short
    to a non-empty prefix, or extended. *)
Lemma codeWidth_zero_prefix m b :
  codeWidth E (m ++ b) = 0%nat -> codeWidth E m = 0%nat.
Proof.
  intros H. destruct (codeWidth E m) as [|k] eqn:Hk; [done|].
  apply codeWidth_pos in Hk as (w & r & Hw & -> & _).
  exfalso. eapply codeWidth_zero; [exact H | exact Hw |].
  rewrite <- app_assoc. by apply prefix_app_r.
Qed.

Lemma trimCode_skip k t :
  (k <= length t)%nat -> trimCode E k t = trimCode E 0 (drop k t).
Proof.
  revert t. induction k as [|k IH]; intros t Hk.
  - by rewrite drop_0.
  - destruct t as [|c t]; simpl in *; [lia|]. apply IH. lia.
Qed.

Lemma trimCode_nohead s : codeWidth E s = 0%nat -> trimCode E 0 s = s.
Proof. intros H. destruct s as [|c s]; [done|]. simpl. by rewrite H. Qed.

Lemma trimCode_word w r : w ∈ E -> trimCode E 0 (w ++ r) = trimCode E 0 r.
Proof.
  intros Hin. pose proof (codeWidth_word w r Hin) as Hw.
  destruct w as [|c w]; [by apply E_nonempty in Hin|].
  simpl in *. rewrite Hw.
  rewrite trimCode_skip by (rewrite length_app; lia).
  by rewrite drop_app_length.
Qed.

Lemma trimCode_words a x : Words a -> trimCode E 0 (a ++ x) = trimCode E 0 x.
Proof.
  induction 1 as [|w a Hw Ha IH]; [done|].
  rewrite <- app_assoc, trimCode_word by done. exact IH.
Qed.

(** The trimmed string is what is left after a run of code words, and
    starts with none. *)
Lemma trimCode_split s :
  exists a, s = a ++ trimCode E 0 s /\ Words a /\ codeWidth E (trimCode E 0 s) = 0%nat.
Proof.
  remember (length s) as n eqn:Hn. revert s Hn.
  induction n as [n IH] using lt_wf_ind. intros s Hn.
  destruct (codeWidth E s) as [|k] eqn:Hk.
  - exists []. rewrite trimCode_nohead by done. split; [done|]. split; [constructor | done].
  - apply codeWidth_pos in Hk as (w & r & Hw & -> & Hlen).
    destruct (IH (length r)) with (s := r) as (a & Ha & HWa & Hz).
    { rewrite Hn, length_app. lia. }
    { done. }
    exists (w ++ a). rewrite trimCode_word by done.
    split; [by rewrite <- app_assoc, <- Ha|]. split; [by constructor | done].
Qed.

Lemma Words_app a b : Words a -> Words b -> Words (a ++ b).
Proof.
  induction 1 as [|w a Hw Ha IH]; intros Hb; [done|].
  rewrite <- app_assoc. constructor; auto.
Qed.

Lemma Words_single w : w ∈ E -> Words w.
Proof. intros H. rewrite <- (app_nil_r w). constructor; [done | constructor]. Qed.

Lemma trimCode_Words a : Words a -> trimCode E 0 a = [].
Proof. intros H. rewrite <- (app_nil_r a). by rewrite trimCode_words. Qed.

Lemma trimCode_nil_Words s : trimCode E 0 s = [] -> Words s.
Proof.
  intros H. destruct (trimCode_split s) as (a & Ha & HW & _).
  rewrite H, app_nil_r in Ha. by subst.
Qed.

(** A byte that occurs in no code word stops the trimming. *)
Lemma codeWidth_sep c m y :
  (forall w, w ∈ E -> c ∉ w) ->
  codeWidth E m = 0%nat -> codeWidth E (m ++ c :: y) = 0%nat.
Proof.
  intros Hc Hm. destruct (codeWidth E (m ++ c :: y)) as [|k] eqn:Hk; [done|].
  exfalso. apply codeWidth_pos in Hk as (w & r & Hw & Heq & _).
  assert (H1 : m `prefix_of` m ++ c :: y) by (by apply prefix_app_r).
  assert (H2 : w `prefix_of` m ++ c :: y) by (rewrite Heq; by apply prefix_app_r).
  destruct (prefix_weak_total _ _ _ H1 H2) as [[k' Hmw]|Hwm].
  - destruct k' as [|c' k'].
    + rewrite app_nil_r in Hmw. subst w.
      eapply codeWidth_zero; [exact Hm | exact Hw | done].
    + rewrite Hmw, <- app_assoc in Heq. apply app_inv_head in Heq.
      simpl in Heq. injection Heq as -> _.
      apply (Hc w Hw). rewrite Hmw. apply elem_of_app. right. by left.
  - eapply codeWidth_zero; [exact Hm | exact Hw | done].
Qed.

Lemma trimCode_sep c x y :
  (forall w, w ∈ E -> c ∉ w) ->
  trimCode E 0 (x ++ c :: y) = trimCode E 0 x ++ c :: y.
Proof.
  intros Hc. destruct (trimCode_split x) as (a & Ha & HW & Hz).
  rewrite Ha at 1. rewrite <- app_assoc, trimCode_words by done.
  apply trimCode_nohead. by apply codeWidth_sep.
Qed.

(** No byte that starts a code word occurs further inside one. *)
Hypothesis E_lead :
  forall w u c, w ∈ E -> u ∈ E -> head u = Some c -> c ∉ tail w.

Lemma codeWidth_zero_app_Words m b :
  m <> [] -> codeWidth E m = 0%nat -> Words b -> codeWidth E (m ++ b) = 0%nat.
Proof.
  intros Hne Hm Hb. destruct (codeWidth E (m ++ b)) as [|k] eqn:Hk; [done|].
  exfalso. apply codeWidth_pos in Hk as (w & r & Hw & Heq & _).
  assert (H1 : m `prefix_of` m ++ b) by (by apply prefix_app_r).
  assert (H2 : w `prefix_of` m ++ b) by (rewrite Heq; by apply prefix_app_r).
  destruct (prefix_weak_total _ _ _ H1 H2) as [[k' Hmw]|Hwm].
  - destruct k' as [|c' k'].
    + rewrite app_nil_r in Hmw. subst w.
      eapply codeWidth_zero; [exact Hm | exact Hw | done].
    + rewrite Hmw, <- app_assoc in Heq. apply app_inv_head in Heq.
      destruct Hb as [|u b Hu Hb]; [done|].
      destruct u as [|c u]; [by apply E_nonempty in Hu|].
      simpl in Heq. injection Heq as Hcc _.
      apply (E_lead w (c :: u) c' Hw Hu); [by rewrite Hcc|].
      rewrite Hmw. destruct m as [|c0 m]; [done|]. simpl.
      apply elem_of_app. right. by left.
  - eapply codeWidth_zero; [exact Hm | exact Hw | done].
Qed.

End Code.

(** ** White space *)

Lemma code_ok_nonempty E : code_ok E = true -> forall w, w ∈ E -> w <> [].
Proof.
  unfold code_ok. rewrite !andb_true_iff. intros [H _] w Hw ->.
  rewrite forallb_forall in H. apply list_elem_of_In, H in Hw. done.
Qed.

Lemma code_ok_prefix_free E :
  code_ok E = true ->
  forall w1 w2, w1 ∈ E -> w2 ∈ E -> w1 `prefix_of` w2 -> w1 = w2.
Proof.
  unfold code_ok. rewrite !andb_true_iff. intros [_ H] w1 w2 H1 H2 Hp.
  rewrite forallb_forall in H. apply list_elem_of_In, H in H1.
  rewrite forallb_forall in H1. apply list_elem_of_In, H1 in H2.
  apply HasPrefix_prefix in Hp. rewrite Hp in H2. simpl in H2.
  by apply bool_decide_eq_true in H2.
Qed.

Lemma code_lead_spec E :
  code_lead E = true ->
  forall w u c, w ∈ E -> u ∈ E -> head u = Some c -> c ∉ tail w.
Proof.
  unfold code_lead. intros H w u c Hw Hu Hc Hin.
  rewrite forallb_forall in H. apply list_elem_of_In, H in Hw.
  rewrite forallb_forall in Hw. apply list_elem_of_In, Hw in Hu.
  destruct u as [|c' u]; [done|]. simpl in Hc. injection Hc as ->.
  apply negb_true_iff in Hu. apply not_true_iff_false in Hu. apply Hu.
  apply existsb_exists. exists c. split; [by apply list_elem_of_In|].
  apply Ascii.eqb_refl.
Qed.

Lemma unicodeSpace_ok : code_ok unicodeSpace = true.
Proof. vm_compute. reflexivity. Qed.

Lemma unicodeSpace_lead : code_lead unicodeSpace = true.
Proof. vm_compute. reflexivity. Qed.

Lemma unicodeSpaceRev_ok : code_ok unicodeSpaceRev = true.
Proof. vm_compute. reflexivity. Qed.

Lemma Words_rev E a : Words E a -> Words (map (@rev ascii) E) (rev a).
Proof.
  induction 1 as [|w a Hw Ha IH]; [constructor|].
  rewrite rev_app_distr.
  assert (HWw : Words (map (@rev ascii) E) (rev w ++ [])).
  { constructor; [|constructor]. apply list_elem_of_fmap. by exists w. }
  rewrite app_nil_r in HWw.
  clear -IH HWw. induction IH as [|u b Hu Hb IHb]; [done|].
  rewrite <- app_assoc. constructor; auto.
Qed.

Lemma Words_rev_inv a : Words unicodeSpaceRev a -> Spaces (rev a).
Proof.
  intros H. apply Words_rev in H. unfold Spaces, unicodeSpaceRev in *.
  rewrite map_map in H. erewrite map_ext, map_id in H; [done|].
  intros w. apply rev_involutive.
Qed.

Lemma Spaces_rev a : Spaces a -> Words unicodeSpaceRev (rev a).
Proof. apply Words_rev. Qed.

Lemma spaceByte_false c : spaceByte c = false -> forall w, w ∈ unicodeSpace -> c ∉ w.
Proof.
  unfold spaceByte. intros H w Hw Hc.
  apply not_true_iff_false in H. apply H.
  apply existsb_exists. exists w. split; [by apply list_elem_of_In|].
  apply existsb_exists. exists c. split; [by apply list_elem_of_In|].
  apply Ascii.eqb_refl.
Qed.

Lemma spaceByte_false_rev c :
  spaceByte c = false -> forall w, w ∈ unicodeSpaceRev -> c ∉ w.
Proof.
  intros H w Hw Hc. unfold unicodeSpaceRev in Hw.
  apply list_elem_of_fmap in Hw as (u & -> & Hu).
  apply (spaceByte_false c H u Hu).
  apply list_elem_of_In, in_rev. by apply list_elem_of_In.
Qed.

Lemma TrimLeftSpace_split s :
  exists a, s = a ++ TrimLeftSpace s /\ Spaces a
            /\ codeWidth unicodeSpace (TrimLeftSpace s) = 0%nat.
Proof.
  apply trimCode_split.
  - apply code_ok_nonempty, unicodeSpace_ok.
  - apply code_ok_prefix_free, unicodeSpace_ok.
Qed.

Lemma TrimRightSpace_split s :
  exists b, s = TrimRightSpace s ++ b /\ Spaces b
            /\ codeWidth unicodeSpaceRev (rev (TrimRightSpace s)) = 0%nat.
Proof.
  destruct (trimCode_split unicodeSpaceRev
              (code_ok_nonempty _ unicodeSpaceRev_ok)
              (code_ok_prefix_free _ unicodeSpaceRev_ok) (rev s))
    as (a & Ha & HW & Hz).
  exists (rev a). unfold TrimRightSpace. fold unicodeSpaceRev.
  split; [|split].
  - rewrite <- rev_app_distr, <- Ha. by rewrite rev_involutive.
  - by apply Words_rev_inv.
  - by rewrite rev_involutive.
Qed.

Lemma TrimLeftSpace_Spaces a x : Spaces a -> TrimLeftSpace (a ++ x) = TrimLeftSpace x.
Proof.
  apply trimCode_words.
  - apply code_ok_nonempty, unicodeSpace_ok.
  - apply code_ok_prefix_free, unicodeSpace_ok.
Qed.

Lemma TrimRightSpace_Spaces x b : Spaces b -> TrimRightSpace (x ++ b) = TrimRightSpace x.
Proof.
  intros Hb. unfold TrimRightSpace. fold unicodeSpaceRev. f_equal.
  rewrite rev_app_distr. apply trimCode_words.
  - apply code_ok_nonempty, unicodeSpaceRev_ok.
  - apply code_ok_prefix_free, unicodeSpaceRev_ok.
  - by apply Spaces_rev.
Qed.

Lemma TrimLeftSpace_nohead s :
  codeWidth unicodeSpace s = 0%nat -> TrimLeftSpace s = s.
Proof. apply trimCode_nohead. Qed.

Lemma TrimRightSpace_notail s :
  codeWidth unicodeSpaceRev (rev s) = 0%nat -> TrimRightSpace s = s.
Proof.
  intros H. unfold TrimRightSpace. fold unicodeSpaceRev.
  rewrite trimCode_nohead by done. apply rev_involutive.
Qed.

Lemma TrimLeftSpace_sep c x y :
  spaceByte c = false -> TrimLeftSpace (x ++ c :: y) = TrimLeftSpace x ++ c :: y.
Proof.
  intros Hc. apply trimCode_sep.
  - apply code_ok_nonempty, unicodeSpace_ok.
  - apply code_ok_prefix_free, unicodeSpace_ok.
  - by apply spaceByte_false.
Qed.

Lemma TrimRightSpace_sep c x y :
  spaceByte c = false -> TrimRightSpace (x ++ c :: y) = x ++ c :: TrimRightSpace y.
Proof.
  intros Hc. unfold TrimRightSpace. fold unicodeSpaceRev.
  rewrite rev_app_distr. simpl. rewrite <- app_assoc. simpl.
  rewrite trimCode_sep.
  - rewrite rev_app_distr. simpl. by rewrite rev_involutive, <- app_assoc.
  - apply code_ok_nonempty, unicodeSpaceRev_ok.
  - apply code_ok_prefix_free, unicodeSpaceRev_ok.
  - by apply spaceByte_false_rev.
Qed.

Lemma TrimSpace_sep c x y :
  spaceByte c = false ->
  TrimSpace (x ++ c :: y) = TrimLeftSpace x ++ c :: TrimRightSpace y.
Proof.
  intros Hc. unfold TrimSpace. rewrite TrimLeftSpace_sep by done.
  by apply TrimRightSpace_sep.
Qed.

Lemma TrimLeftSpace_idem s : TrimLeftSpace (TrimLeftSpace s) = TrimLeftSpace s.
Proof.
  destruct (TrimLeftSpace_split s) as (a & _ & _ & Hz).
  by apply TrimLeftSpace_nohead.
Qed.

Lemma TrimRightSpace_idem s : TrimRightSpace (TrimRightSpace s) = TrimRightSpace s.
Proof.
  destruct (TrimRightSpace_split s) as (a & _ & _ & Hz).
  by apply TrimRightSpace_notail.
Qed.

Lemma TrimSpace_TrimLeftSpace s : TrimSpace (TrimLeftSpace s) = TrimSpace s.
Proof. unfold TrimSpace. by rewrite TrimLeftSpace_idem. Qed.

Lemma Spaces_nohead_nil b :
  Spaces b -> codeWidth unicodeSpace b = 0%nat -> b = [].
Proof.
  intros [|w a Hw Ha] Hz; [done|]. exfalso.
  eapply (codeWidth_zero unicodeSpace (code_ok_nonempty _ unicodeSpace_ok));
    [exact Hz | exact Hw | by apply prefix_app_r].
Qed.

Lemma TrimSpace_TrimRightSpace s : TrimSpace (TrimRightSpace s) = TrimSpace s.
Proof.
  destruct (TrimRightSpace_split s) as (b & Hs & Hb & _).
  destruct (TrimLeftSpace_split (TrimRightSpace s)) as (a & Hm & Ha & Hz).
  remember (TrimRightSpace s) as m eqn:Em.
  remember (TrimLeftSpace m) as m' eqn:Em'.
  assert (HL : TrimSpace m = TrimRightSpace m') by (unfold TrimSpace; by rewrite <- Em').
  rewrite HL. clear HL Em Em'. subst m s. unfold TrimSpace.
  rewrite <- !app_assoc, TrimLeftSpace_Spaces by done.
  destruct m' as [|c m'].
  - simpl. unfold TrimLeftSpace.
    rewrite (trimCode_Words unicodeSpace (code_ok_nonempty _ unicodeSpace_ok)
               (code_ok_prefix_free _ unicodeSpace_ok)) by done.
    done.
  - rewrite TrimLeftSpace_nohead.
    + by rewrite TrimRightSpace_Spaces.
    + apply (codeWidth_zero_app_Words unicodeSpace
               (code_ok_nonempty _ unicodeSpace_ok)
               (code_lead_spec _ unicodeSpace_lead)); done.
Qed.

Lemma TrimSpace_idem s : TrimSpace (TrimSpace s) = TrimSpace s.
Proof.
  unfold TrimSpace at 2. by rewrite TrimSpace_TrimRightSpace, TrimSpace_TrimLeftSpace.
Qed.

Lemma TrimSpace_Spaces s : TrimSpace s = [] <-> Spaces s.
Proof.
  split.
  - intros H. unfold TrimSpace in H.
    destruct (TrimLeftSpace_split s) as (a & Hs & Ha & Hz).
    destruct (TrimRightSpace_split (TrimLeftSpace s)) as (b & Hb & HWb & _).
    rewrite H in Hb. simpl in Hb. rewrite <- Hb in HWb.
    apply Spaces_nohead_nil in HWb; [|done].
    rewrite HWb, app_nil_r in Hs. by subst.
  - intros H. unfold TrimSpace, TrimLeftSpace.
    rewrite (trimCode_Words unicodeSpace (code_ok_nonempty _ unicodeSpace_ok)
               (code_ok_prefix_free _ unicodeSpace_ok)) by done.
    done.
Qed.

Lemma codeWidth_nonspace_head c r :
  spaceByte c = false -> codeWidth unicodeSpace (c :: r) = 0%nat.
Proof.
  intros Hc.
  apply (codeWidth_sep unicodeSpace (code_ok_nonempty _ unicodeSpace_ok) c [] r).
  - by apply spaceByte_false.
  - apply codeWidth_nil, code_ok_nonempty, unicodeSpace_ok.
Qed.

Lemma codeWidth_nonspace_last c r :
  spaceByte c = false -> codeWidth unicodeSpaceRev (rev (r ++ [c])) = 0%nat.
Proof.
  intros Hc. rewrite rev_app_distr. simpl.
  apply (codeWidth_sep unicodeSpaceRev (code_ok_nonempty _ unicodeSpaceRev_ok) c [] (rev r)).
  - by apply spaceByte_false_rev.
  - apply codeWidth_nil, code_ok_nonempty, unicodeSpaceRev_ok.
Qed.

(** ** Splitting and joining *)

Lemma Contains_elem_of s c : Contains s c = true <-> c ∈ s.
Proof.
  unfold Contains. rewrite existsb_exists. split.
  - intros (x & Hin & Heq). apply Ascii.eqb_eq in Heq. subst.
    by apply list_elem_of_In.
  - intros H. exists c. split; [by apply list_elem_of_In | apply Ascii.eqb_refl].
Qed.

Lemma Contains_false s c : Contains s c = false <-> c ∉ s.
Proof.
  rewrite <- Contains_elem_of. by destruct (Contains s c).
Qed.

Lemma Split_nonempty s c : Split s c <> [].
Proof.
  destruct s as [|a s]; simpl; [done|].
  destruct (Ascii.eqb a c); [done|]. by destruct (Split s c).
Qed.

Lemma Split_nosep x c : c ∉ x -> Split x c = [x].
Proof.
  induction x as [|a x IH]; intros Hc; simpl; [done|].
  apply not_elem_of_cons in Hc as [Hne Hc].
  destruct (Ascii.eqb_spec a c) as [->|_]; [done|].
  by rewrite IH.
Qed.

Lemma Split_app_sep x y c : c ∉ x -> Split (x ++ c :: y) c = x :: Split y c.
Proof.
  induction x as [|a x IH]; intros Hc; simpl.
  - by rewrite Ascii.eqb_refl.
  - apply not_elem_of_cons in Hc as [Hne Hc].
    destruct (Ascii.eqb_spec a c) as [->|_]; [done|].
    by rewrite IH.
Qed.

Lemma Split_Join toks c :
  toks <> [] -> Forall (fun t => c ∉ t) toks -> Split (Join toks c) c = toks.
Proof.
  induction toks as [|t toks IH]; intros Hne Hall; [done|].
  apply Forall_cons in Hall as [Ht Hall].
  destruct toks as [|t' toks].
  - simpl. by apply Split_nosep.
  - change (Join (t :: t' :: toks) c) with (t ++ c :: Join (t' :: toks) c).
    rewrite Split_app_sep by done. f_equal. by apply IH.
Qed.

Lemma Join_Split s c : Join (Split s c) c = s.
Proof.
  induction s as [|a s IH]; [done|]. simpl.
  destruct (Ascii.eqb_spec a c) as [->|Hne].
  - pose proof (Split_nonempty s c) as Hs.
    destruct (Split s c) as [|hd tl]; [done|]. simpl in *. by rewrite IH.
  - pose proof (Split_nonempty s c) as Hs.
    destruct (Split s c) as [|hd tl]; [done|].
    destruct tl; simpl in *; by rewrite <- IH.
Qed.

Lemma Split_no_sep_inside s c : Forall (fun t => c ∉ t) (Split s c).
Proof.
  induction s as [|a s IH]; simpl.
  - constructor; [apply not_elem_of_nil | constructor].
  - destruct (Ascii.eqb_spec a c) as [->|Hne].
    + constructor; [apply not_elem_of_nil | done].
    + destruct (Split s c) as [|hd tl].
      * constructor; [|constructor].
        apply not_elem_of_cons. split; [done | apply not_elem_of_nil].
      * apply Forall_cons in IH as [Hhd Htl]. constructor; [|done].
        apply not_elem_of_cons. by split.
Qed.

Lemma Cut_app_sep x y c : c ∉ x -> Cut (x ++ c :: y) c = Some (x, y).
Proof.
  induction x as [|a x IH]; intros Hc; simpl.
  - by rewrite Ascii.eqb_refl.
  - apply not_elem_of_cons in Hc as [Hne Hc].
    destruct (Ascii.eqb_spec a c) as [->|_]; [done|].
    by rewrite IH.
Qed.

Lemma Cut_Some s c l r : Cut s c = Some (l, r) -> s = l ++ c :: r /\ c ∉ l.
Proof.
  revert l. induction s as [|a s IH]; intros l; simpl; [done|].
  destruct (Ascii.eqb_spec a c) as [->|Hne].
  - intros [= <- <-]. split; [done | apply not_elem_of_nil].
  - destruct (Cut s c) as [[l' r']|]; [|done].
    intros [= <- <-]. destruct (IH l' eq_refl) as [-> Hl]. split; [done|].
    apply not_elem_of_cons. split; [congruence | done].
Qed.

Lemma Cut_None s c : Cut s c = None <-> c ∉ s.
Proof.
  induction s as [|a s IH]; simpl.
  - split; [intros _; apply not_elem_of_nil | done].
  - destruct (Ascii.eqb_spec a c) as [->|Hne].
    + split; [done|]. intros H. exfalso. apply H. by left.
    + rewrite not_elem_of_cons. destruct (Cut s c) as [[l r]|].
      * split; [done|]. intros [_ H]. by apply IH in H.
      * split; [|done]. intros _. split; [congruence | by apply IH].
Qed.

Lemma elem_of_sep (s : gostring) c : c ∈ s -> exists l r, s = l ++ c :: r /\ c ∉ l.
Proof.
  intros H. destruct (Cut s c) as [[l r]|] eqn:HC.
  - exists l, r. by apply Cut_Some.
  - by apply Cut_None in HC.
Qed.

(** Trimming keeps a part of the string. *)
Lemma TrimSpace_sublist s : exists a b, s = a ++ TrimSpace s ++ b /\ Spaces a /\ Spaces b.
Proof.
  destruct (TrimLeftSpace_split s) as (a & Hs & Ha & _).
  destruct (TrimRightSpace_split (TrimLeftSpace s)) as (b & Hb & HWb & _).
  exists a, b. unfold TrimSpace. by rewrite <- Hb.
Qed.

Lemma TrimSpace_elem_of s c : c ∈ TrimSpace s -> c ∈ s.
Proof.
  destruct (TrimSpace_sublist s) as (a & b & Hs & _). intros H.
  rewrite Hs. apply elem_of_app. right. apply elem_of_app. by left.
Qed.

Lemma TrimLeftSpace_elem_of s c : c ∈ TrimLeftSpace s -> c ∈ s.
Proof.
  destruct (TrimLeftSpace_split s) as (a & Hs & _). intros H.
  rewrite Hs. apply elem_of_app. by right.
Qed.

Lemma TrimRightSpace_elem_of s c : c ∈ TrimRightSpace s -> c ∈ s.
Proof.
  destruct (TrimRightSpace_split s) as (a & Hs & _). intros H.
  rewrite Hs. apply elem_of_app. by left.
Qed.

Lemma Spaces_elem_of (s : gostring) c : Spaces s -> c ∈ s -> spaceByte c = true.
Proof.
  induction 1 as [|w a Hw Ha IH]; [by intros ?%elem_of_nil|].
  intros [H|H]%elem_of_app; [|auto].
  destruct (spaceByte c) eqn:Hc; [done|].
  by apply (spaceByte_false c Hc w Hw) in H.
Qed.

(** A byte that is not white space survives the trimming. *)
Lemma TrimSpace_elem_of_nonspace (s : gostring) c :
  spaceByte c = false -> c ∈ s -> c ∈ TrimSpace s.
Proof.
  intros Hc H. destruct (TrimSpace_sublist s) as (a & b & Hs & Ha & Hb).
  rewrite Hs in H. apply elem_of_app in H as [H|H].
  - apply (Spaces_elem_of _ _ Ha) in H. congruence.
  - apply elem_of_app in H as [H|H]; [done|].
    apply (Spaces_elem_of _ _ Hb) in H. congruence.
Qed.

(** ** The token loop *)

Lemma is_empty_true (s : gostring) : is_empty s = true <-> s = [].
Proof. by destruct s. Qed.

Lemma is_empty_false (s : gostring) : is_empty s = false <-> s <> [].
Proof. by destruct s. Qed.

Lemma parseTokens_TrimSpace toks toks' i singles ranges :
  map TrimSpace toks = map TrimSpace toks' ->
  parseTokens i toks singles ranges = parseTokens i toks' singles ranges.
Proof.
  revert toks' i singles ranges.
  induction toks as [|t toks IH]; intros [|t' toks'] i singles ranges Heq;
    try discriminate; [done|].
  simpl in Heq. injection Heq as Ht Htoks. simpl. rewrite Ht.
  destruct (is_empty (TrimSpace t')); [done|].
  destruct (Contains (TrimSpace t') "-").
  - destruct (parsePortRange (TrimSpace t')) as [[a b]|e]; [by apply IH | done].
  - destruct (parseSinglePort (TrimSpace t')) as [n|e]; [by apply IH | done].
Qed.

Lemma tokenItem_TrimSpace tok : tokenItem (TrimSpace tok) = tokenItem tok.
Proof. unfold tokenItem. by rewrite TrimSpace_idem. Qed.

Lemma parseTokens_Err toks tok i singles ranges :
  tok ∈ toks -> tokenItem tok = None ->
  exists e, parseTokens i toks singles ranges = Err e.
Proof.
  revert i singles ranges. induction toks as [|t toks IH]; intros i singles ranges Hin Hnone.
  - by apply elem_of_nil in Hin.
  - simpl. apply elem_of_cons in Hin as [<-|Hin].
    + unfold tokenItem in Hnone.
      destruct (is_empty (TrimSpace tok)); [by eexists|].
      destruct (Contains (TrimSpace tok) "-").
      * destruct (parsePortRange (TrimSpace tok)) as [[a b]|e]; [done | by eexists].
      * destruct (parseSinglePort (TrimSpace tok)) as [n|e]; [done | by eexists].
    + destruct (is_empty (TrimSpace t)); [by eexists|].
      destruct (Contains (TrimSpace t) "-").
      * destruct (parsePortRange (TrimSpace t)) as [[a b]|e]; [by apply IH | by eexists].
      * destruct (parseSinglePort (TrimSpace t)) as [n|e]; [by apply IH | by eexists].
Qed.

Lemma inSlices_snoc_single singles ranges n p :
  inSlices (singles ++ [n]) ranges p <-> inSlices singles ranges p \/ p = n.
Proof. unfold inSlices. rewrite elem_of_app, list_elem_of_singleton. tauto. Qed.

Lemma inSlices_snoc_range singles ranges a b p :
  inSlices singles (ranges ++ [(a, b)]) p <-> inSlices singles ranges p \/ a <= p <= b.
Proof.
  unfold inSlices. split.
  - intros [H|(rg & Hrg & Hp)]; [tauto|].
    apply elem_of_app in Hrg as [Hrg|Hrg%list_elem_of_singleton].
    + left. right. by exists rg.
    + subst rg. by right.
  - intros [[H|(rg & Hrg & Hp)]|H]; [tauto | |].
    + right. exists rg. split; [apply elem_of_app; by left | done].
    + right. exists (a, b). split; [apply elem_of_app; right; by apply list_elem_of_singleton | done].
Qed.

Lemma denotes_cons t toks p :
  denotes (t :: toks) p <->
  (exists it, tokenItem t = Some it /\ covers it p) \/ denotes toks p.
Proof.
  unfold denotes. split.
  - intros (tok & it & Hin & Hit & Hc). apply elem_of_cons in Hin as [->|Hin].
    + left. by exists it.
    + right. by exists tok, it.
  - intros [(it & Hit & Hc)|(tok & it & Hin & Hit & Hc)].
    + exists t, it. split; [by left | done].
    + exists tok, it. split; [by right | done].
Qed.

Lemma parseTokens_Ok toks i singles ranges :
  Forall (fun tok => is_Some (tokenItem tok)) toks ->
  exists singles' ranges',
    parseTokens i toks singles ranges = Ok (singles', ranges') /\
    forall p, inSlices singles' ranges' p <-> inSlices singles ranges p \/ denotes toks p.
Proof.
  revert i singles ranges. induction toks as [|t toks IH]; intros i singles ranges Hall.
  - exists singles, ranges. split; [done|]. intros p. unfold denotes. split; [tauto|].
    intros [H|(tok & it & Hin & _)]; [done|]. by apply elem_of_nil in Hin.
  - apply Forall_cons in Hall as [[it Hit] Hall]. simpl.
    pose proof Hit as Hit'. unfold tokenItem in Hit.
    destruct (is_empty (TrimSpace t)); [done|].
    destruct (Contains (TrimSpace t) "-").
    + destruct (parsePortRange (TrimSpace t)) as [[a b]|e]; [|done].
      injection Hit as <-.
      destruct (IH (S i) singles (ranges ++ [(a, b)]) Hall) as (s' & r' & Heq & Hp).
      exists s', r'. split; [done|]. intros p.
      rewrite Hp, inSlices_snoc_range, denotes_cons, Hit'. split.
      * intros [[H|H]|H]; [tauto | | tauto]. right. left. by exists (Range a b).
      * intros [H|[(it & [= <-] & Hc)|H]]; simpl in *; tauto.
    + destruct (parseSinglePort (TrimSpace t)) as [n|e]; [|done].
      injection Hit as <-.
      destruct (IH (S i) (singles ++ [n]) ranges Hall) as (s' & r' & Heq & Hp).
      exists s', r'. split; [done|]. intros p.
      rewrite Hp, inSlices_snoc_single, denotes_cons, Hit'. split.
      * intros [[H|H]|H]; [tauto | | tauto]. right. left. by exists (Single n).
      * intros [H|[(it & [= <-] & Hc)|H]]; simpl in *; tauto.
Qed.

Lemma parseTokens_Ok_inv toks i singles ranges x :
  parseTokens i toks singles ranges = Ok x ->
  Forall (fun tok => is_Some (tokenItem tok)) toks.
Proof.
  intros H. apply Forall_forall. intros tok Hin.
  destruct (tokenItem tok) as [it|] eqn:Hit; [by eexists|].
  destruct (parseTokens_Err toks tok i singles ranges Hin Hit) as [e He].
  congruence.
Qed.

(** ** The set [seen] and the sorted result *)

Lemma addSingles_spec seen singles p :
  p ∈ addSingles seen singles <-> p ∈ seen \/ p ∈ singles.
Proof.
  unfold addSingles. revert seen. induction singles as [|n singles IH]; intros seen; simpl.
  - rewrite elem_of_nil. tauto.
  - rewrite IH, elem_of_union, elem_of_singleton, elem_of_cons. tauto.
Qed.

Lemma addRange_spec seen rg p :
  p ∈ addRange seen rg <-> p ∈ seen \/ fst rg <= p <= snd rg.
Proof.
  unfold addRange.
  assert (H : p ∈ foldl (fun seen p => {[ p ]} ∪ seen) seen
                (seqZ (fst rg) (snd rg - fst rg + 1)) <->
              p ∈ seen \/ p ∈ seqZ (fst rg) (snd rg - fst rg + 1)).
  { generalize (seqZ (fst rg) (snd rg - fst rg + 1)). intros l. revert seen.
    induction l as [|n l IH]; intros seen; simpl.
    - rewrite elem_of_nil. tauto.
    - rewrite IH, elem_of_union, elem_of_singleton, elem_of_cons. tauto. }
  rewrite H, elem_of_seqZ. split; (intros [?|?]; [tauto | right; lia]).
Qed.

Lemma addRanges_spec seen ranges p :
  p ∈ addRanges seen ranges <->
  p ∈ seen \/ exists rg, rg ∈ ranges /\ fst rg <= p <= snd rg.
Proof.
  unfold addRanges. revert seen. induction ranges as [|rg ranges IH]; intros seen; simpl.
  - split; [tauto|]. intros [H|(rg & Hin & _)]; [done|]. by apply elem_of_nil in Hin.
  - rewrite IH, addRange_spec. split.
    + intros [[H|H]|(rg' & Hin & Hp)]; [tauto | |].
      * right. exists rg. split; [by left | done].
      * right. exists rg'. split; [by right | done].
    + intros [H|(rg' & Hin & Hp)]; [tauto|].
      apply elem_of_cons in Hin as [->|Hin]; [tauto|]. right. by exists rg'.
Qed.

Lemma seen_spec singles ranges p :
  p ∈ addRanges (addSingles ∅ singles) ranges <-> inSlices singles ranges p.
Proof.
  rewrite addRanges_spec, addSingles_spec. unfold inSlices.
  rewrite elem_of_empty. tauto.
Qed.

Lemma sortInts_Permutation l : sortInts l ≡ₚ l.
Proof. apply merge_sort_Permutation. Qed.

Lemma sortInts_sorted l : StronglySorted Z.le (sortInts l).
Proof. apply (StronglySorted_merge_sort Z.le). Qed.

(** The order in which the keys of the map are visited does not show in
    the sorted slice. *)
Lemma sortInts_perm l1 l2 : l1 ≡ₚ l2 -> sortInts l1 = sortInts l2.
Proof.
  intros H. apply (StronglySorted_unique Z.le); try apply sortInts_sorted.
  by rewrite !sortInts_Permutation.
Qed.

Lemma sorted_le_NoDup_lt l : StronglySorted Z.le l -> NoDup l -> StronglySorted Z.lt l.
Proof.
  induction 1 as [|x l Hl IH Hx]; intros Hnd; [constructor|].
  apply NoDup_cons in Hnd as [Hnotin Hnd]. constructor; [by apply IH|].
  rewrite Forall_forall in Hx |- *. intros y Hy.
  assert (x <> y) by (intros ->; done). specialize (Hx y Hy). lia.
Qed.

Lemma sorted_lt_NoDup l : StronglySorted Z.lt l -> NoDup l.
Proof.
  induction 1 as [|x l Hl IH Hx]; [constructor|].
  constructor; [|done]. intros Hin. rewrite Forall_forall in Hx.
  specialize (Hx x Hin). lia.
Qed.

Lemma sorted_lt_le l : StronglySorted Z.lt l -> StronglySorted Z.le l.
Proof.
  induction 1 as [|x l Hl IH Hx]; constructor; [done|].
  eapply Forall_impl; [exact Hx|]. simpl. intros. lia.
Qed.

Lemma sorted_lt_unique l1 l2 :
  StronglySorted Z.lt l1 -> StronglySorted Z.lt l2 ->
  (forall p, p ∈ l1 <-> p ∈ l2) -> l1 = l2.
Proof.
  intros H1 H2 Heq. apply (StronglySorted_unique Z.le); try by apply sorted_lt_le.
  apply NoDup_Permutation; auto using sorted_lt_NoDup.
Qed.

Lemma sortInts_mapKeys_sorted seen : StronglySorted Z.lt (sortInts (mapKeys seen)).
Proof.
  apply sorted_le_NoDup_lt; [apply sortInts_sorted|].
  rewrite sortInts_Permutation. apply NoDup_elements.
Qed.

Lemma sortInts_mapKeys_elem_of seen p : p ∈ sortInts (mapKeys seen) <-> p ∈ seen.
Proof. rewrite sortInts_Permutation. unfold mapKeys. apply elem_of_elements. Qed.

(** ** [expandPortSpec] in terms of the tokens of the specification *)

Lemma comma_not_space : spaceByte "," = false.
Proof. reflexivity. Qed.

Lemma hyphen_not_space : spaceByte "-" = false.
Proof. reflexivity. Qed.

Lemma Split_TrimLeftSpace s :
  map TrimSpace (Split (TrimLeftSpace s) ",") = map TrimSpace (Split s ",").
Proof.
  destruct (decide ("," ∈ s)) as [Hin|Hnin].
  - apply elem_of_sep in Hin as (x & y & -> & Hx).
    rewrite TrimLeftSpace_sep by apply comma_not_space.
    rewrite !Split_app_sep; [|done|].
    + simpl. by rewrite TrimSpace_TrimLeftSpace.
    + intros H. by apply TrimLeftSpace_elem_of in H.
  - rewrite !Split_nosep; [|done|].
    + simpl. by rewrite TrimSpace_TrimLeftSpace.
    + intros H. by apply TrimLeftSpace_elem_of in H.
Qed.

Lemma Split_TrimRightSpace s :
  map TrimSpace (Split (TrimRightSpace s) ",") = map TrimSpace (Split s ",").
Proof.
  remember (length s) as n eqn:Hn. revert s Hn.
  induction n as [n IH] using lt_wf_ind. intros s Hn.
  destruct (decide ("," ∈ s)) as [Hin|Hnin].
  - apply elem_of_sep in Hin as (x & y & -> & Hx).
    rewrite TrimRightSpace_sep by apply comma_not_space.
    rewrite !Split_app_sep by done. simpl. f_equal.
    apply (IH (length y)); [|done]. rewrite Hn, length_app. simpl. lia.
  - rewrite !Split_nosep; [|done|].
    + simpl. by rewrite TrimSpace_TrimRightSpace.
    + intros H. by apply TrimRightSpace_elem_of in H.
Qed.

Lemma Split_TrimSpace s :
  map TrimSpace (Split (TrimSpace s) ",") = map TrimSpace (Split s ",").
Proof. unfold TrimSpace at 2. by rewrite Split_TrimRightSpace, Split_TrimLeftSpace. Qed.

Lemma expandPortSpec_tokens spec :
  expandPortSpec spec =
    if is_empty (TrimSpace spec) then Err EmptyPortsSpec
    else match parseTokens 0 (Split spec ",") [] [] with
         | Err err => Err err
         | Ok (singles, ranges) =>
             Ok (sortInts (mapKeys (addRanges (addSingles ∅ singles) ranges)))
         end.
Proof.
  unfold expandPortSpec. destruct (is_empty (TrimSpace spec)); [done|].
  by rewrite (parseTokens_TrimSpace _ (Split spec ",")) by apply Split_TrimSpace.
Qed.

Lemma expand_blank spec : TrimSpace spec = [] -> expandPortSpec spec = Err EmptyPortsSpec.
Proof. intros H. unfold expandPortSpec. by rewrite H. Qed.

Lemma expand_Err_token spec tok :
  tok ∈ Split spec "," -> tokenItem tok = None -> exists e, expandPortSpec spec = Err e.
Proof.
  intros Hin Hnone. rewrite expandPortSpec_tokens.
  destruct (is_empty (TrimSpace spec)); [by eexists|].
  destruct (parseTokens_Err _ _ 0%nat [] [] Hin Hnone) as [e ->]. by eexists.
Qed.

Lemma tokens_ok_not_blank spec :
  Forall (fun tok => is_Some (tokenItem tok)) (Split spec ",") -> TrimSpace spec <> [].
Proof.
  intros Hall Hblank.
  assert (Hc : "," ∉ spec).
  { intros Hc. apply (TrimSpace_elem_of_nonspace _ _ comma_not_space) in Hc.
    rewrite Hblank in Hc. by apply elem_of_nil in Hc. }
  rewrite Split_nosep in Hall by done.
  apply Forall_cons in Hall as [[it Hit] _].
  unfold tokenItem in Hit. by rewrite Hblank in Hit.
Qed.

Lemma expand_Ok spec :
  Forall (fun tok => is_Some (tokenItem tok)) (Split spec ",") ->
  exists l, expandPortSpec spec = Ok l /\ StronglySorted Z.lt l /\
            forall p, p ∈ l <-> denotes (Split spec ",") p.
Proof.
  intros Hall. rewrite expandPortSpec_tokens.
  pose proof (tokens_ok_not_blank spec Hall) as Hnb.
  apply is_empty_false in Hnb. rewrite Hnb.
  destruct (parseTokens_Ok _ 0%nat [] [] Hall) as (s' & r' & -> & Hp).
  eexists. split; [done|]. split; [apply sortInts_mapKeys_sorted|].
  intros p. rewrite sortInts_mapKeys_elem_of, seen_spec, Hp.
  unfold inSlices. split; [|tauto].
  intros [[H|(rg & H & _)]|H]; [| |done]; by apply elem_of_nil in H.
Qed.

Lemma expand_Ok_inv spec l :
  expandPortSpec spec = Ok l ->
  Forall (fun tok => is_Some (tokenItem tok)) (Split spec ",") /\
  StronglySorted Z.lt l /\
  forall p, p ∈ l <-> denotes (Split spec ",") p.
Proof.
  intros H.
  assert (Hall : Forall (fun tok => is_Some (tokenItem tok)) (Split spec ",")).
  { rewrite expandPortSpec_tokens in H.
    destruct (is_empty (TrimSpace spec)); [done|].
    destruct (parseTokens 0 (Split spec ",") [] []) as [x|e] eqn:Hx; [|done].
    by apply parseTokens_Ok_inv in Hx. }
  split; [done|].
  destruct (expand_Ok spec Hall) as (l' & Hl' & Hs & Hp).
  rewrite H in Hl'. injection Hl' as <-. done.
Qed.

(** ** What a token that parses is worth *)

Lemma parseSinglePort_Ok token n :
  parseSinglePort token = Ok n ->
  TrimSpace token <> [] /\ Atoi (TrimSpace token) = Some n /\ 1 <= n <= 65535.
Proof.
  unfold parseSinglePort.
  destruct (is_empty (TrimSpace token)) eqn:He; [done|].
  destruct (Atoi (TrimSpace token)) as [m|]; [|done].
  destruct ((1 <=? m) && (m <=? 65535)) eqn:Hr; [|done].
  intros [= ->]. apply is_empty_false in He. split; [done|]. split; [done|]. lia.
Qed.

Lemma parseSinglePort_TrimSpace token :
  parseSinglePort (TrimSpace token) = parseSinglePort token.
Proof. unfold parseSinglePort. by rewrite TrimSpace_idem. Qed.

Lemma parseSinglePort_Atoi token n :
  Atoi (TrimSpace token) = Some n -> 1 <= n <= 65535 -> parseSinglePort token = Ok n.
Proof.
  intros Ha Hn. unfold parseSinglePort. rewrite Ha.
  destruct (TrimSpace token) as [|c t]; [done|]. simpl.
  replace ((1 <=? n) && (n <=? 65535)) with true by lia. done.
Qed.

Lemma parsePortRange_Ok token a b :
  parsePortRange token = Ok (a, b) ->
  exists l r, Cut (TrimSpace token) "-" = Some (l, r) /\
              parseSinglePort l = Ok a /\ parseSinglePort r = Ok b /\ a <= b.
Proof.
  unfold parsePortRange.
  destruct (is_empty (TrimSpace token)); [done|]. simpl.
  destruct (Cut (TrimSpace token) "-") as [[l r]|]; [|done].
  destruct (is_empty (TrimSpace l) || is_empty (TrimSpace r)); [done|].
  rewrite !parseSinglePort_TrimSpace.
  destruct (parseSinglePort l) as [a'|] eqn:Hl; [|done].
  destruct (parseSinglePort r) as [b'|] eqn:Hr; [|done].
  destruct (b' <? a') eqn:Hlt; [done|].
  intros [= -> ->]. exists l, r. split; [done|]. split; [done|]. split; [done|]. lia.
Qed.

Lemma tokenItem_in_range tok it :
  tokenItem tok = Some it ->
  match it with
  | Single n => 1 <= n <= 65535
  | Range a b => 1 <= a /\ a <= b /\ b <= 65535
  end.
Proof.
  unfold tokenItem. destruct (is_empty (TrimSpace tok)); [done|].
  destruct (Contains (TrimSpace tok) "-").
  - destruct (parsePortRange (TrimSpace tok)) as [[a b]|] eqn:Hr; [|done].
    intros [= <-]. apply parsePortRange_Ok in Hr as (l & r & _ & Hl & Hr & Hab).
    apply parseSinglePort_Ok in Hl as (_ & _ & Hl).
    apply parseSinglePort_Ok in Hr as (_ & _ & Hr). lia.
  - destruct (parseSinglePort (TrimSpace tok)) as [n|] eqn:Hn; [|done].
    intros [= <-]. by apply parseSinglePort_Ok in Hn as (_ & _ & Hn).
Qed.

Lemma denotes_in_range toks p : denotes toks p -> 1 <= p <= 65535.
Proof.
  intros (tok & it & _ & Hit & Hc). apply tokenItem_in_range in Hit.
  destruct it; simpl in *; lia.
Qed.

Lemma tokenItem_covers tok it : tokenItem tok = Some it -> exists p, covers it p.
Proof.
  intros H. apply tokenItem_in_range in H. destruct it as [n|a b]; simpl.
  - by exists n.
  - exists a. lia.
Qed.

(** ** Decimal digits *)

Lemma digit_facts c d :
  digitVal c = Some d ->
  0 <= d <= 9 /\ spaceByte c = false /\ c <> "-" /\ c <> "," /\ c <> "+".
Proof.
  destruct c as [[] [] [] [] [] [] [] []]; vm_compute; intros H;
    try discriminate H; injection H as <-;
    (split; [split; discriminate|]); (split; [reflexivity|]);
    repeat split; discriminate.
Qed.

Lemma digitVal_digitChar d : 0 <= d <= 9 -> digitVal (digitChar d) = Some d.
Proof.
  intros H.
  assert (Hd : d = 0 \/ d = 1 \/ d = 2 \/ d = 3 \/ d = 4 \/
               d = 5 \/ d = 6 \/ d = 7 \/ d = 8 \/ d = 9) by lia.
  repeat (destruct Hd as [->|Hd]; [reflexivity|]). by subst.
Qed.

Lemma parseDigits_app acc ds1 ds2 :
  parseDigits acc (ds1 ++ ds2) =
  match parseDigits acc ds1 with
  | Some v => parseDigits v ds2
  | None => None
  end.
Proof.
  revert acc. induction ds1 as [|c ds1 IH]; intros acc; simpl; [done|].
  destruct (digitVal c); [apply IH | done].
Qed.

Lemma itoaDigits_spec fuel n acc :
  fuel <> 0%nat -> 0 <= n < 10 ^ Z.of_nat fuel ->
  exists ds, itoaDigits fuel n acc = ds ++ acc /\ ds <> [] /\ Forall isDigit ds /\
             forall a0, parseDigits a0 ds = Some (a0 * 10 ^ Z.of_nat (length ds) + n).
Proof.
  revert n acc. induction fuel as [|f IH]; intros n acc Hf Hn; [done|].
  simpl itoaDigits. destruct (n <? 10) eqn:Hlt.
  - apply Z.ltb_lt in Hlt. exists [digitChar (n mod 10)].
    rewrite Z.mod_small by lia.
    split; [done|]. split; [done|]. split.
    + constructor; [|constructor]. unfold isDigit. rewrite digitVal_digitChar by lia. by eexists.
    + intros a0. simpl. rewrite digitVal_digitChar by lia. f_equal; lia.
  - apply Z.ltb_ge in Hlt.
    assert (Hf' : f <> 0%nat).
    { intros ->. simpl in Hn. lia. }
    assert (Hq : 0 <= n / 10 < 10 ^ Z.of_nat f).
    { split; [apply Z.div_pos; lia|].
      apply Z.div_lt_upper_bound; [lia|].
      replace (Z.of_nat (S f)) with (Z.succ (Z.of_nat f)) in Hn by lia.
      rewrite Z.pow_succ_r in Hn by lia. lia. }
    destruct (IH (n / 10) (digitChar (n mod 10) :: acc) Hf' Hq) as (ds & Heq & Hne & Hall & Hval).
    exists (ds ++ [digitChar (n mod 10)]).
    assert (Hm : 0 <= n mod 10 <= 9) by (pose proof (Z.mod_pos_bound n 10); lia).
    split; [by rewrite Heq, <- app_assoc|]. split; [by destruct ds|]. split.
    + apply Forall_app. split; [done|]. constructor; [|constructor].
      unfold isDigit. rewrite digitVal_digitChar by lia. by eexists.
    + intros a0. rewrite parseDigits_app, Hval. simpl.
      rewrite digitVal_digitChar by lia. f_equal.
      rewrite length_app. simpl.
      replace (Z.of_nat (length ds + 1)) with (Z.succ (Z.of_nat (length ds))) by lia.
      rewrite Z.pow_succ_r by lia.
      pose proof (Z.div_mod n 10). lia.
Qed.

Lemma lt_pow10 (k : nat) : Z.of_nat k < 10 ^ Z.of_nat (S k).
Proof.
  induction k as [|k IH]; [done|].
  replace (Z.of_nat (S (S k))) with (Z.succ (Z.of_nat (S k))) by lia.
  rewrite Z.pow_succ_r by lia. lia.
Qed.

Lemma Itoa_digits n :
  0 <= n ->
  Itoa n <> [] /\ Forall isDigit (Itoa n) /\ parseDigits 0 (Itoa n) = Some n.
Proof.
  intros Hn. unfold Itoa. replace (n <? 0) with false by lia.
  destruct (itoaDigits_spec (S (Z.to_nat n)) n []) as (ds & Heq & Hne & Hall & Hval).
  - done.
  - pose proof (lt_pow10 (Z.to_nat n)). lia.
  - rewrite Heq, app_nil_r. split; [done|]. split; [done|]. by rewrite Hval.
Qed.

Lemma digits_no_byte (ds : gostring) c :
  Forall isDigit ds -> ~ isDigit c -> c ∉ ds.
Proof.
  intros Hall Hc Hin. rewrite Forall_forall in Hall. by apply Hall in Hin.
Qed.

Lemma TrimSpace_digits ds : Forall isDigit ds -> TrimSpace ds = ds.
Proof.
  intros Hall. unfold TrimSpace.
  assert (HL : TrimLeftSpace ds = ds).
  { destruct ds as [|c ds]; [done|]. apply TrimLeftSpace_nohead.
    apply Forall_cons in Hall as [[d Hd] _]. apply digit_facts in Hd as (_ & Hd & _).
    by apply codeWidth_nonspace_head. }
  rewrite HL.
  destruct ds as [|c ds _] using rev_ind; [done|].
  apply TrimRightSpace_notail.
  apply Forall_app in Hall as [_ Hc]. apply Forall_cons in Hc as [[d Hd] _].
  apply digit_facts in Hd as (_ & Hd & _).
  by apply codeWidth_nonspace_last.
Qed.

Lemma Atoi_digits ds n :
  ds <> [] -> Forall isDigit ds -> parseDigits 0 ds = Some n ->
  n <= maxInt -> 0 <= n -> Atoi ds = Some n.
Proof.
  intros Hne Hall Hval Hmax Hpos. destruct ds as [|c ds]; [done|].
  unfold Atoi. pose proof Hall as Hall'.
  apply Forall_cons in Hall' as [[d Hd] _].
  apply digit_facts in Hd as (_ & _ & Hm & _ & Hp).
  destruct (Ascii.eqb_spec c "-") as [->|_]; [done|].
  destruct (Ascii.eqb_spec c "+") as [->|_]; [done|].
  unfold signedDigits. rewrite Hval.
  replace (1 * n) with n by lia.
  assert (minInt <= n) by (unfold minInt, intSize; simpl; lia).
  replace ((minInt <=? n) && (n <=? maxInt)) with true by lia. done.
Qed.

Lemma not_digit_hyphen : ~ isDigit "-".
Proof. intros [d Hd]. discriminate. Qed.

Lemma not_digit_comma : ~ isDigit ",".
Proof. intros [d Hd]. discriminate. Qed.

Lemma tokenItem_Itoa p : 1 <= p <= 65535 -> tokenItem (Itoa p) = Some (Single p).
Proof.
  intros Hp. destruct (Itoa_digits p) as (Hne & Hall & Hval); [lia|].
  unfold tokenItem. rewrite TrimSpace_digits by done.
  apply is_empty_false in Hne. rewrite Hne.
  replace (Contains (Itoa p) "-") with false
    by (symmetry; apply Contains_false, digits_no_byte; [done | apply not_digit_hyphen]).
  rewrite (parseSinglePort_Atoi _ p); [done | | done].
  rewrite TrimSpace_digits by done. apply is_empty_false in Hne.
  apply Atoi_digits; try done; [|lia]. unfold maxInt, intSize. simpl. lia.
Qed.

Lemma Itoa_no_comma p : 0 <= p -> "," ∉ Itoa p.
Proof.
  intros Hp. destruct (Itoa_digits p Hp) as (_ & Hall & _).
  apply digits_no_byte; [done | apply not_digit_comma].
Qed.

(** ** What [strconv.Atoi] accepts *)

Lemma parseDigits_Some acc s n :
  0 <= acc -> parseDigits acc s = Some n -> Forall isDigit s /\ 0 <= n.
Proof.
  revert acc. induction s as [|c s IH]; intros acc Hacc; simpl.
  - intros [= <-]. split; [constructor | done].
  - destruct (digitVal c) as [d|] eqn:Hd; [|done]. intros H.
    pose proof (digit_facts c d Hd) as (Hd9 & _).
    apply IH in H as [Hall Hn]; [|lia].
    split; [|done]. constructor; [by exists d | done].
Qed.

Lemma signedDigits_Some sign ds v :
  signedDigits sign ds = Some v ->
  exists m, ds <> [] /\ Forall isDigit ds /\ parseDigits 0 ds = Some m /\
            0 <= m /\ v = sign * m.
Proof.
  unfold signedDigits. destruct ds as [|c ds]; [done|].
  destruct (parseDigits 0 (c :: ds)) as [m|] eqn:Hm; [|done].
  destruct ((minInt <=? sign * m) && (sign * m <=? maxInt)); [|done].
  intros [= <-]. apply parseDigits_Some in Hm as Hm'; [|done].
  destruct Hm' as [Hall Hpos]. by exists m.
Qed.

(** [Atoi] accepts exactly an optional sign followed by decimal digits. *)
Lemma Atoi_Some_inv s n :
  Atoi s = Some n ->
  exists ds m, ds <> [] /\ Forall isDigit ds /\ parseDigits 0 ds = Some m /\ 0 <= m /\
    ((s = ds /\ n = m) \/ (s = "+" :: ds /\ n = m) \/ (s = "-" :: ds /\ n = - m)).
Proof.
  unfold Atoi. destruct s as [|c t]; [done|].
  destruct (Ascii.eqb_spec c "-") as [->|Hm].
  { intros H. apply signedDigits_Some in H as (m & ? & ? & ? & ? & ->).
    exists t, m. repeat (split; [done|]). right. right. split; [done | lia]. }
  destruct (Ascii.eqb_spec c "+") as [->|Hp].
  { intros H. apply signedDigits_Some in H as (m & ? & ? & ? & ? & ->).
    exists t, m. repeat (split; [done|]). right. left. split; [done | lia]. }
  intros H. apply signedDigits_Some in H as (m & ? & ? & ? & ? & ->).
  exists (c :: t), m. repeat (split; [done|]). left. split; [done | lia].
Qed.

Lemma Atoi_hyphen (s : gostring) n : "-" ∈ s -> Atoi s = Some n -> n <= 0.
Proof.
  intros Hin H. apply Atoi_Some_inv in H as (ds & m & _ & Hall & _ & Hm & Hs).
  assert (Hnd : "-" ∉ ds) by (apply digits_no_byte; [done | apply not_digit_hyphen]).
  destruct Hs as [[-> _]|[[-> _]|[-> ->]]].
  - done.
  - apply elem_of_cons in Hin as [Hin|Hin]; done.
  - lia.
Qed.

(** A text with a hyphen is never a port: [Atoi] either rejects it or
    reads a number that is not positive. *)
Lemma parseSinglePort_hyphen (r : gostring) :
  "-" ∈ r ->
  parseSinglePort r = Err (InvalidPort (TrimSpace r)) \/
  exists n, n <= 0 /\ Atoi (TrimSpace r) = Some n /\
            parseSinglePort r = Err (PortOutOfRange n).
Proof.
  intros Hin. apply (TrimSpace_elem_of_nonspace _ _ hyphen_not_space) in Hin.
  unfold parseSinglePort.
  destruct (TrimSpace r) as [|c t] eqn:Ht; [by apply elem_of_nil in Hin|].
  simpl is_empty. cbv iota.
  destruct (Atoi (c :: t)) as [n|] eqn:Ha; [|by left].
  right. exists n. pose proof (Atoi_hyphen _ _ Hin Ha) as Hn.
  split; [done|]. split; [done|].
  replace ((1 <=? n) && (n <=? 65535)) with false by lia. done.
Qed.

Lemma parseSinglePort_Ok_bytes (l : gostring) a c :
  parseSinglePort l = Ok a -> c ∈ l -> spaceByte c = true \/ isDigit c \/ c = "+".
Proof.
  intros H Hin. apply parseSinglePort_Ok in H as (_ & Ha & Hr).
  destruct (TrimSpace_sublist l) as (x & y & Hl & Hx & Hy).
  rewrite Hl in Hin. apply elem_of_app in Hin as [Hin|Hin].
  { left. by apply (Spaces_elem_of x). }
  apply elem_of_app in Hin as [Hin|Hin].
  2: { left. by apply (Spaces_elem_of y). }
  right. apply Atoi_Some_inv in Ha as (ds & m & _ & Hall & _ & Hm & Hs).
  rewrite Forall_forall in Hall.
  destruct Hs as [[Hs _]|[[Hs _]|[Hs Hneg]]]; rewrite Hs in Hin.
  - left. by apply Hall.
  - apply elem_of_cons in Hin as [->|Hin]; [by right | left; by apply Hall].
  - lia.
Qed.

Lemma parseSinglePort_Ok_no_hyphen (l : gostring) a : parseSinglePort l = Ok a -> "-" ∉ l.
Proof.
  intros H Hin. destruct (parseSinglePort_Ok_bytes l a "-" H Hin) as [Hs|[Hd|Hp]].
  - discriminate.
  - by apply not_digit_hyphen.
  - discriminate.
Qed.

Lemma parseSinglePort_Ok_no_comma (l : gostring) a : parseSinglePort l = Ok a -> "," ∉ l.
Proof.
  intros H Hin. destruct (parseSinglePort_Ok_bytes l a "," H Hin) as [Hs|[Hd|Hp]].
  - discriminate.
  - by apply not_digit_comma.
  - discriminate.
Qed.

(** ** Tokens with and without a hyphen *)

Lemma TrimSpace_hyphen l r :
  TrimSpace (l ++ "-" :: r) = TrimLeftSpace l ++ "-" :: TrimRightSpace r.
Proof. apply TrimSpace_sep, hyphen_not_space. Qed.

Lemma parsePortRange_parts l r :
  "-" ∉ l ->
  parsePortRange (l ++ "-" :: r) =
    let token := TrimSpace (l ++ "-" :: r) in
    if is_empty (TrimSpace l) || is_empty (TrimSpace r) then Err (InvalidRangeBounds token)
    else match parseSinglePort l with
         | Err err => Err (InvalidLeftBound (TrimSpace l) err)
         | Ok start =>
             match parseSinglePort r with
             | Err err => Err (InvalidRightBound (TrimSpace r) err)
             | Ok end_ =>
                 if end_ <? start then Err (RangeStartGtEnd token) else Ok (start, end_)
             end
         end.
Proof.
  intros Hl. unfold parsePortRange. rewrite TrimSpace_hyphen.
  assert (Hl' : "-" ∉ TrimLeftSpace l).
  { intros H. by apply TrimLeftSpace_elem_of in H. }
  assert (Hne : is_empty (TrimLeftSpace l ++ "-" :: TrimRightSpace r) = false)
    by (by destruct (TrimLeftSpace l)).
  rewrite Hne. simpl SplitN.
  rewrite Cut_app_sep by done.
  rewrite TrimSpace_TrimLeftSpace, TrimSpace_TrimRightSpace, !parseSinglePort_TrimSpace.
  done.
Qed.

Lemma tokenItem_range l r :
  "-" ∉ l ->
  tokenItem (l ++ "-" :: r) =
    match parsePortRange (l ++ "-" :: r) with
    | Ok (start, end_) => Some (Range start end_)
    | Err _ => None
    end.
Proof.
  intros Hl. unfold tokenItem.
  assert (Hp : parsePortRange (TrimSpace (l ++ "-" :: r)) = parsePortRange (l ++ "-" :: r)).
  { unfold parsePortRange. by rewrite TrimSpace_idem. }
  rewrite Hp. rewrite TrimSpace_hyphen.
  assert (Hne : is_empty (TrimLeftSpace l ++ "-" :: TrimRightSpace r) = false)
    by (by destruct (TrimLeftSpace l)).
  rewrite Hne.
  replace (Contains (TrimLeftSpace l ++ "-" :: TrimRightSpace r) "-") with true; [done|].
  symmetry. apply Contains_elem_of. apply elem_of_app. right. by left.
Qed.

Lemma tokenItem_single (tok : gostring) :
  "-" ∉ tok ->
  tokenItem tok =
    if is_empty (TrimSpace tok) then None
    else match parseSinglePort tok with
         | Ok n => Some (Single n)
         | Err _ => None
         end.
Proof.
  intros Hl. unfold tokenItem.
  destruct (is_empty (TrimSpace tok)); [done|].
  replace (Contains (TrimSpace tok) "-") with false.
  - by rewrite parseSinglePort_TrimSpace.
  - symmetry. apply Contains_false. intros H. by apply TrimSpace_elem_of in H.
Qed.

Lemma hyphens_zero (tok : gostring) : hyphens tok = 0%nat <-> "-" ∉ tok.
Proof.
  unfold hyphens. rewrite <- count_occ_not_In. by rewrite list_elem_of_In.
Qed.

Lemma hyphens_app l r : hyphens (l ++ r) = (hyphens l + hyphens r)%nat.
Proof. apply count_occ_app. Qed.

Lemma hyphens_cons_hyphen r : hyphens ("-" :: r) = S (hyphens r).
Proof. unfold hyphens. by rewrite count_occ_cons_eq. Qed.

(** A token with two hyphens or more: the part after the first one still
    has a hyphen. *)
Lemma two_hyphens_split (tok : gostring) :
  (2 <= hyphens tok)%nat ->
  exists l r, tok = l ++ "-" :: r /\ ("-" ∉ l) /\ ("-" ∈ r).
Proof.
  intros H.
  assert (Hin : "-" ∈ tok).
  { destruct (decide ("-" ∈ tok)) as [?|Hn]; [done|]. apply hyphens_zero in Hn. lia. }
  apply elem_of_sep in Hin as (l & r & -> & Hl). exists l, r.
  split; [done|]. split; [done|].
  rewrite hyphens_app, hyphens_cons_hyphen in H.
  apply hyphens_zero in Hl.
  destruct (decide ("-" ∈ r)) as [?|Hn]; [done|]. apply hyphens_zero in Hn. lia.
Qed.

Lemma tokenItem_second_hyphen l r :
  "-" ∉ l -> "-" ∈ r -> tokenItem (l ++ "-" :: r) = None.
Proof.
  intros Hl Hr. rewrite tokenItem_range, parsePortRange_parts by done. cbv zeta.
  destruct (is_empty (TrimSpace l) || is_empty (TrimSpace r)); [done|].
  destruct (parseSinglePort l); [|done].
  destruct (parseSinglePort_hyphen r Hr) as [->|(n & _ & _ & ->)]; done.
Qed.

Lemma parseSinglePort_invalid v :
  Atoi (TrimSpace v) = None \/
  (exists n, Atoi (TrimSpace v) = Some n /\ (n < 1 \/ 65535 < n)) ->
  exists e, parseSinglePort v = Err e.
Proof.
  intros H. unfold parseSinglePort.
  destruct (is_empty (TrimSpace v)); [by eexists|].
  destruct H as [->|(n & -> & Hn)]; [by eexists|].
  replace ((1 <=? n) && (n <=? 65535)) with false by lia. by eexists.
Qed.

Lemma tokenItem_range_bounds l r a b :
  parseSinglePort l = Ok a -> parseSinglePort r = Ok b ->
  tokenItem (l ++ "-" :: r) = if b <? a then None else Some (Range a b).
Proof.
  intros Hl Hr.
  rewrite tokenItem_range, parsePortRange_parts
    by (by eapply parseSinglePort_Ok_no_hyphen).
  cbv zeta. rewrite Hl, Hr.
  apply parseSinglePort_Ok in Hl as (Hl & _). apply parseSinglePort_Ok in Hr as (Hr & _).
  apply is_empty_false in Hl, Hr. rewrite Hl, Hr. simpl.
  by destruct (b <? a).
Qed.

Lemma denotes_middle pre tok post it p :
  tokenItem tok = Some it ->
  denotes (pre ++ tok :: post) p <-> covers it p \/ denotes (pre ++ post) p.
Proof.
  intros Hit. unfold denotes. split.
  - intros (t & it' & Hin & Hit' & Hc).
    apply elem_of_app in Hin as [Hin|Hin].
    + right. exists t, it'. split; [apply elem_of_app; by left | done].
    + apply elem_of_cons in Hin as [->|Hin].
      * left. congruence.
      * right. exists t, it'. split; [apply elem_of_app; by right | done].
  - intros [Hc|(t & it' & Hin & Hit' & Hc)].
    + exists tok, it. split; [|done]. apply elem_of_app. right. by left.
    + exists t, it'. split; [|done].
      apply elem_of_app in Hin as [Hin|Hin]; apply elem_of_app; [by left|].
      right. by right.
Qed.

Lemma tokenItem_Some_values tok it v :
  tokenItem tok = Some it -> v ∈ numericValues tok ->
  exists n, parseSinglePort v = Ok n.
Proof.
  intros Hit Hv. unfold numericValues in Hv.
  destruct (Cut tok "-") as [[l r]|] eqn:Hcut.
  - apply Cut_Some in Hcut as [-> Hl].
    rewrite tokenItem_range, parsePortRange_parts in Hit by done. cbv zeta in Hit.
    destruct (is_empty (TrimSpace l) || is_empty (TrimSpace r)); [done|].
    destruct (parseSinglePort l) as [a|] eqn:Ha; [|done].
    destruct (parseSinglePort r) as [b|] eqn:Hb; [|done].
    apply elem_of_cons in Hv as [->|Hv]; [by exists a|].
    apply list_elem_of_singleton in Hv as ->. by exists b.
  - apply Cut_None in Hcut. apply list_elem_of_singleton in Hv as ->.
    rewrite tokenItem_single in Hit by done.
    destruct (is_empty (TrimSpace tok)); [done|].
    destruct (parseSinglePort tok) as [n|] eqn:Hn; [by exists n | done].
Qed.

Lemma Spaces_space s : Spaces s -> Spaces (" " :: s).
Proof.
  intros H. apply (Words_cons unicodeSpace [" "] s); [|done].
  unfold unicodeSpace. simpl. do 5 apply list_elem_of_further. apply list_elem_of_here.
Qed.

(** ** The scan engine *)

Module ScanFacts.
Import Scan.

Lemma held_insert pool i w w' :
  pool !! i = Some w ->
  exists X, concat (map held pool) ≡ₚ held w ++ X /\
            concat (map held (<[ i := w' ]> pool)) ≡ₚ held w' ++ X.
Proof.
  revert i. induction pool as [|v pool IH]; intros [|i] Hi; try done; simpl in *.
  - injection Hi as ->. by exists (concat (map held pool)).
  - destruct (IH i Hi) as (X & H1 & H2). exists (held v ++ X). split.
    + rewrite H1. by rewrite !app_assoc, (Permutation_app_comm (held v)).
    + rewrite H2. by rewrite !app_assoc, (Permutation_app_comm (held v)).
Qed.

(** A step moves ports along, or drops one; it never makes one up. *)
Lemma step_in_flight workers resbuf s s' :
  step workers resbuf s s' -> in_flight s' ⊆+ in_flight s.
Proof.
  intros Hstep. destruct Hstep; unfold in_flight, set_pool; simpl;
    repeat match goal with
    | H : pool _ !! _ = Some _ |- context [<[ _ := ?w' ]> _] =>
        let X := fresh "X" in let H1 := fresh "H1" in let H2 := fresh "H2" in
        destruct (held_insert _ _ _ w' H) as (X & H1 & H2);
        rewrite H1, H2; clear H H1 H2
    | H : _ = _ |- _ => rewrite H; clear H
    end; simpl; solve_submseteq.
Qed.

Lemma step_returned workers resbuf s s' :
  step workers resbuf s s' ->
  (forall l, returned s = Some l -> l = sortInts (openPorts s)) ->
  forall l, returned s' = Some l -> l = sortInts (openPorts s').
Proof.
  intros Hstep Hinv l. destruct Hstep; simpl; try apply Hinv; [done|].
  by intros [= <-].
Qed.

Lemma reachable_invariant plan workers resbuf s :
  reachable plan workers resbuf s ->
  in_flight s ⊆+ plan /\
  forall l, returned s = Some l -> l = sortInts (openPorts s).
Proof.
  unfold reachable. revert s.
  apply (rtc_ind_r (fun s => in_flight s ⊆+ plan /\
           forall l, returned s = Some l -> l = sortInts (openPorts s))).
  2: intros s1 s2 Hrun Hstep [IH1 IH2].
  - split; [|done]. unfold in_flight, init. simpl.
    assert (Hh : concat (map held (replicate workers Receiving)) = []).
    { induction workers as [|n IHn]; [done | exact IHn]. }
    rewrite Hh. simpl. by rewrite app_nil_r.
  - split.
    + etrans; [by eapply step_in_flight | done].
    + by eapply step_returned.
Qed.

Lemma openPorts_in_flight s : openPorts s ⊆+ in_flight s.
Proof.
  unfold in_flight. rewrite !app_assoc. apply submseteq_inserts_l. done.
Qed.

(** Every step brings the run closer to its end. *)
Lemma insert_weight pool i w w' :
  pool !! i = Some w ->
  (sum_list (map wweight (<[ i := w' ]> pool)) + wweight w
   = sum_list (map wweight pool) + wweight w')%nat.
Proof.
  revert i. induction pool as [|v pool IH]; intros [|i] Hi; try done; simpl in *.
  - injection Hi as ->. lia.
  - specialize (IH i Hi). lia.
Qed.

Lemma step_measure workers resbuf s s' :
  step workers resbuf s s' -> (measure s' < measure s)%nat.
Proof.
  intros Hstep. destruct Hstep; unfold measure, set_pool; simpl;
    repeat match goal with
    | H : pool _ !! _ = Some _ |- context [<[ _ := ?w' ]> _] =>
        pose proof (insert_weight _ _ _ w' H); clear H
    | H : _ = _ |- _ => rewrite H; clear H
    end; simpl in *; rewrite ?length_app; simpl; lia.
Qed.

(** As long as [main] has not returned, some goroutine can move. *)
Lemma step_progress workers resbuf s :
  (0 < workers)%nat -> (0 < resbuf)%nat ->
  returned s = None -> exists s', step workers resbuf s s'.
Proof.
  intros Hw Hr Hret.
  destruct (results_ch s) as [|p rest] eqn:Hres.
  2: { eexists. by eapply main_recv. }
  destruct (results_closed s) eqn:Hrc.
  { eexists. by eapply main_sort. }
  destruct (decide (Forall (fun w => w = Done) (pool s))) as [Hall|Hnall].
  { eexists. by eapply closer_close. }
  apply not_Forall_Exists in Hnall; [|solve_decision].
  apply Exists_exists in Hnall as (w & Hin & Hw').
  apply list_elem_of_lookup in Hin as [i Hi].
  destruct w as [|p|p|]; [| | |by destruct Hw'].
  - destruct (ports_ch s) as [|p rest] eqn:Hpc.
    2: { eexists. by eapply worker_recv. }
    destruct (ports_closed s) eqn:Hclosed.
    { eexists. by eapply worker_exit. }
    destruct (feed s) as [|p rest] eqn:Hfeed.
    { eexists. by eapply feeder_close. }
    eexists. eapply feeder_send; [done|]. rewrite Hpc. simpl. lia.
  - eexists. by eapply worker_probe_open.
  - eexists. eapply worker_send; [done|]. rewrite Hres. simpl. lia.
Qed.

(** Hence every run can be carried on until [main] has its sorted
    slice. *)
Lemma run_completes workers resbuf s :
  (0 < workers)%nat -> (0 < resbuf)%nat ->
  exists s', rtc (step workers resbuf) s s' /\ is_Some (returned s').
Proof.
  intros Hw Hr. remember (measure s) as n eqn:Hn. revert s Hn.
  induction n as [n IH] using lt_wf_ind. intros s ->.
  destruct (returned s) as [l|] eqn:Hret.
  - exists s. split; [done|]. rewrite Hret. by eexists.
  - destruct (step_progress workers resbuf s Hw Hr Hret) as [s1 Hstep].
    destruct (IH (measure s1) (step_measure _ _ _ _ Hstep) s1 eq_refl) as (s' & Hrun & Hs').
    exists s'. split; [by eapply rtc_l | done].
Qed.

(** No run is longer than the measure of its first state. *)
Lemma run_length_bounded workers resbuf n s s' :
  nsteps (step workers resbuf) n s s' -> (n + measure s' <= measure s)%nat.
Proof.
  induction 1 as [|n s1 s2 s3 Hstep Hrun IH]; [done|].
  apply step_measure in Hstep. lia.
Qed.

Lemma example_run : reachable [443; 80] 2 1 example_final.
Proof.
  unfold reachable, init. simpl.
  eapply rtc_l; [eapply feeder_send; simpl; [reflexivity | lia]|]; simpl.
  eapply rtc_l; [eapply feeder_send; simpl; [reflexivity | lia]|]; simpl.
  eapply rtc_l; [eapply feeder_close; reflexivity|]; simpl.
  eapply rtc_l; [eapply (worker_recv _ _ _ 0%nat); reflexivity|]; simpl.
  eapply rtc_l; [eapply (worker_recv _ _ _ 1%nat); reflexivity|]; simpl.
  eapply rtc_l; [eapply (worker_probe_open _ _ _ 0%nat); reflexivity|]; simpl.
  eapply rtc_l; [eapply (worker_send _ _ _ 0%nat); simpl; [reflexivity | lia]|]; simpl.
  eapply rtc_l; [eapply main_recv; reflexivity|]; simpl.
  eapply rtc_l; [eapply (worker_probe_open _ _ _ 1%nat); reflexivity|]; simpl.
  eapply rtc_l; [eapply (worker_send _ _ _ 1%nat); simpl; [reflexivity | lia]|]; simpl.
  eapply rtc_l; [eapply main_recv; reflexivity|]; simpl.
  eapply rtc_l; [eapply (worker_exit _ _ _ 0%nat); reflexivity|]; simpl.
  eapply rtc_l; [eapply (worker_exit _ _ _ 1%nat); reflexivity|]; simpl.
  eapply rtc_l; [eapply closer_close; simpl; [repeat constructor | reflexivity]|]; simpl.
  eapply rtc_l; [eapply main_sort; reflexivity|]; simpl.
  apply rtc_refl.
Qed.

End ScanFacts.

(** ** The edge cases the specification lists *)

Example expand_80 : expandPortSpec (str "80") = Ok [80].
Proof. vm_compute. reflexivity. Qed.

Example expand_80_80 : expandPortSpec (str "80,80") = Ok [80].
Proof. vm_compute. reflexivity. Qed.

Example expand_8000_8002 : expandPortSpec (str "8000-8002") = Ok [8000; 8001; 8002].
Proof. vm_compute. reflexivity. Qed.

Example expand_100_100 : expandPortSpec (str "100-100") = Ok [100].
Proof. vm_compute. reflexivity. Qed.

Example expand_200_100 :
  expandPortSpec (str "200-100")
  = Err (InvalidRangeTok (str "200-100") (RangeStartGtEnd (str "200-100"))).
Proof. vm_compute. reflexivity. Qed.

Example expand_5_3 :
  expandPortSpec (str "5-3") = Err (InvalidRangeTok (str "5-3") (RangeStartGtEnd (str "5-3"))).
Proof. vm_compute. reflexivity. Qed.

Example expand_empty : expandPortSpec (str "") = Err EmptyPortsSpec.
Proof. vm_compute. reflexivity. Qed.

Example expand_empty_token : expandPortSpec (str "1,,2") = Err (EmptyTokenAt 1).
Proof. vm_compute. reflexivity. Qed.

Example expand_spaces : expandPortSpec (str " 1 , 2 ") = Ok [1; 2].
Proof. vm_compute. reflexivity. Qed.

(** White space beyond ASCII is trimmed as well: a no-break space
    (U+00A0) in front and an ideographic space (U+3000) behind. *)
Example expand_unicode_space :
  expandPortSpec (map byte_of [0xC2; 0xA0]%N ++ str "80-81" ++ map byte_of [0xE3; 0x80; 0x80]%N)
  = Ok [80; 81].
Proof. vm_compute. reflexivity. Qed.

(** * The claims *)

(** C1: in every run of the scan engine, whatever the number of workers,
    the capacity of the result channel, the outcome of the probes and
    the order in which the goroutines move, every port [main] has
    received is a port of the plan, and the slice [main] ends up with
    is sorted in ascending order and holds only ports of the plan (each
    at most as often as the plan has it).  With at least one worker and
    room for one result, the run can always be carried on until [main]
    has that slice. *)
Theorem C1_scan_sorted_within_plan (plan : list Z) (workers resbuf : nat) (s : Scan.state) :
  Scan.reachable plan workers resbuf s ->
  (forall p, p ∈ Scan.openPorts s -> p ∈ plan) /\
  (forall l, Scan.returned s = Some l ->
     StronglySorted Z.le l /\ l ⊆+ plan /\ forall p, p ∈ l -> p ∈ plan) /\
  ((0 < workers)%nat -> (0 < resbuf)%nat ->
     exists s', rtc (Scan.step workers resbuf) s s' /\ is_Some (Scan.returned s')).
Proof.
  intros H. apply ScanFacts.reachable_invariant in H as [Hsub Hret].
  assert (Hopen : Scan.openPorts s ⊆+ plan).
  { etrans; [apply ScanFacts.openPorts_in_flight | done]. }
  split; [|split].
  - intros p Hp. by eapply elem_of_submseteq.
  - intros l Hl. apply Hret in Hl as ->.
    assert (Hl : sortInts (Scan.openPorts s) ⊆+ plan).
    { etrans; [|exact Hopen]. apply Permutation_submseteq, sortInts_Permutation. }
    split; [apply sortInts_sorted|]. split; [done|].
    intros p Hp. by eapply elem_of_submseteq.
  - apply ScanFacts.run_completes.
Qed.

Lemma C1_scan_sorted_within_plan_witness :
  StronglySorted Z.le [80; 443] /\ [80; 443] ⊆+ [443; 80] /\
  forall p, p ∈ [80; 443] -> p ∈ [443; 80].
Proof.
  apply (proj1 (proj2 (C1_scan_sorted_within_plan [443; 80] 2 1 Scan.example_final
                         ScanFacts.example_run)) [80; 443]).
  reflexivity.
Defined.

(** C2: [expandPortSpec] applied to "80,443,8000-8002" succeeds and
    returns exactly the ascending sequence 80, 443, 8000, 8001, 8002. *)
Theorem C2_expand_example :
  expandPortSpec (str "80,443,8000-8002") = Ok [80; 443; 8000; 8001; 8002].
Proof. vm_compute. reflexivity. Qed.

(** C3: whenever [expandPortSpec] succeeds, the returned sequence is
    strictly ascending, has no duplicate, and every element lies in
    1..65535; it holds exactly the ports some token denotes, so ports
    that several tokens contribute appear once, and overlap between
    tokens is no error: the call succeeds as soon as every token parses
    on its own. *)
Theorem C3_expand_canonical (spec : gostring) :
  (forall l, expandPortSpec spec = Ok l ->
     StronglySorted Z.lt l /\ NoDup l /\ Forall (fun p => 1 <= p <= 65535) l /\
     forall p, p ∈ l <-> denotes (Split spec ",") p) /\
  (Forall (fun tok => is_Some (tokenItem tok)) (Split spec ",") ->
     exists l, expandPortSpec spec = Ok l).
Proof.
  split.
  - intros l H. apply expand_Ok_inv in H as (_ & Hs & Hp).
    split; [done|]. split; [by apply sorted_lt_NoDup|]. split; [|done].
    apply Forall_forall. intros p Hin. apply Hp in Hin.
    by apply denotes_in_range in Hin.
  - intros Hall. destruct (expand_Ok spec Hall) as (l & Hl & _). by exists l.
Qed.

Lemma C3_expand_canonical_witness :
  StronglySorted Z.lt [79; 80; 81] /\ NoDup [79; 80; 81] /\
  Forall (fun p => 1 <= p <= 65535) [79; 80; 81] /\
  forall p, p ∈ [79; 80; 81] <-> denotes (Split (str "80,79-81,80") ",") p.
Proof.
  apply (proj1 (C3_expand_canonical (str "80,79-81,80")) [79; 80; 81]).
  vm_compute. reflexivity.
Defined.

(** C4: for a specification on which [expandPortSpec] succeeds, joining
    any permutation of its comma-separated tokens gives a specification
    with the same result. *)
Theorem C4_expand_order_independent (spec : gostring) (toks' : list gostring) (l : list Z) :
  expandPortSpec spec = Ok l ->
  Split spec "," ≡ₚ toks' ->
  expandPortSpec (Join toks' ",") = Ok l.
Proof.
  intros H Hperm. apply expand_Ok_inv in H as (Hall & Hs & Hp).
  assert (Hsplit : Split (Join toks' ",") "," = toks').
  { apply Split_Join.
    - intros ->. apply Permutation_nil_r in Hperm. by apply Split_nonempty in Hperm.
    - eapply Permutation_Forall; [exact Hperm | apply Split_no_sep_inside]. }
  destruct (expand_Ok (Join toks' ",")) as (l' & Hl' & Hs' & Hp').
  { rewrite Hsplit. eapply Permutation_Forall; [exact Hperm | exact Hall]. }
  rewrite Hl'. f_equal. apply sorted_lt_unique; [done | done |].
  intros p. rewrite Hp, Hp', Hsplit. unfold denotes.
  split; intros (tok & it & Hin & Hrest); exists tok, it; split; try done.
  - by rewrite Hperm.
  - by rewrite <- Hperm.
Qed.

Lemma C4_expand_order_independent_witness :
  expandPortSpec (Join [str "443"; str " 8000-8002"; str "80 "] ",")
  = Ok [80; 443; 8000; 8001; 8002].
Proof.
  apply (C4_expand_order_independent (str "80 ,443, 8000-8002")).
  - vm_compute. reflexivity.
  - vm_compute.
    apply (perm_trans (l' := [str "443"; str "80 "; str " 8000-8002"])).
    + apply perm_swap.
    + apply perm_skip, perm_swap.
Defined.

(** C5: if [expandPortSpec] succeeds with result [S], then it succeeds
    on the comma-joined decimal rendering of [S] and returns [S] again. *)
Theorem C5_expand_render_idempotent (spec : gostring) (S : list Z) :
  expandPortSpec spec = Ok S ->
  expandPortSpec (render S) = Ok S.
Proof.
  intros H. pose proof H as H0.
  apply expand_Ok_inv in H as (Hall & Hs & Hp).
  assert (Hrange : forall p, p ∈ S -> 1 <= p <= 65535).
  { intros p Hin. apply Hp in Hin. by apply denotes_in_range in Hin. }
  assert (Hne : S <> []).
  { pose proof (Split_nonempty spec ",") as Hsp.
    destruct (Split spec ",") as [|t toks] eqn:Ht; [done|].
    apply Forall_cons in Hall as [[it Hit] _].
    destruct (tokenItem_covers t it Hit) as [p Hc].
    assert (Hin : p ∈ S).
    { apply Hp. exists t, it. split; [by left | done]. }
    intros ->. by apply elem_of_nil in Hin. }
  assert (Hsplit : Split (render S) "," = map Itoa S).
  { apply Split_Join.
    - by destruct S.
    - apply Forall_forall. intros t Hin.
      apply list_elem_of_fmap in Hin as (p & -> & Hin).
      apply Itoa_no_comma. apply Hrange in Hin. lia. }
  destruct (expand_Ok (render S)) as (l' & Hl' & Hs' & Hp').
  { rewrite Hsplit. apply Forall_forall. intros t Hin.
    apply list_elem_of_fmap in Hin as (p & -> & Hin).
    rewrite tokenItem_Itoa by auto. by eexists. }
  rewrite Hl'. f_equal. apply sorted_lt_unique; [done | done |].
  intros p. rewrite Hp', Hsplit. unfold denotes. split.
  - intros (tok & it & Hin & Hit & Hc).
    apply list_elem_of_fmap in Hin as (q & -> & Hin).
    rewrite tokenItem_Itoa in Hit by auto. injection Hit as <-.
    simpl in Hc. by subst.
  - intros Hin. exists (Itoa p), (Single p).
    split; [by apply list_elem_of_fmap_2|]. split; [by apply tokenItem_Itoa, Hrange | done].
Qed.

Lemma C5_expand_render_idempotent_witness :
  expandPortSpec (render [80; 443; 8000; 8001; 8002]) = Ok [80; 443; 8000; 8001; 8002].
Proof.
  apply (C5_expand_render_idempotent (str "8000-8002, 443 ,80,80")).
  vm_compute. reflexivity.
Defined.

(** C6: [expandPortSpec] returns an error, and no ports, whenever the
    specification is empty or blank, whenever one of its comma-separated
    tokens is empty or blank, and whenever a token has nothing but white
    space on one side of a hyphen. *)
Theorem C6_expand_malformed (spec : gostring) :
  (Spaces spec -> expandPortSpec spec = Err EmptyPortsSpec) /\
  (forall tok, tok ∈ Split spec "," -> Spaces tok ->
     exists e, expandPortSpec spec = Err e) /\
  (forall tok l r, tok ∈ Split spec "," -> tok = l ++ "-" :: r ->
     Spaces l \/ Spaces r -> exists e, expandPortSpec spec = Err e).
Proof.
  split; [|split].
  - intros H. by apply expand_blank, TrimSpace_Spaces.
  - intros tok Hin Hsp. apply (expand_Err_token spec tok Hin).
    unfold tokenItem. apply TrimSpace_Spaces in Hsp. by rewrite Hsp.
  - intros tok l r Hin -> Hside. apply (expand_Err_token spec _ Hin).
    destruct (decide ("-" ∈ l)) as [Hl|Hl].
    + apply elem_of_sep in Hl as (l1 & l2 & -> & Hl1).
      rewrite <- app_assoc. simpl. apply tokenItem_second_hyphen; [done|].
      apply elem_of_app. right. by left.
    + rewrite tokenItem_range, parsePortRange_parts by done. cbv zeta.
      destruct Hside as [H|H]; apply TrimSpace_Spaces in H; rewrite H; simpl; [done|].
      by rewrite orb_true_r.
Qed.

Lemma C6_expand_malformed_witness :
  expandPortSpec (str "  ") = Err EmptyPortsSpec /\
  (exists e, expandPortSpec (str "1,,2") = Err e) /\
  (exists e, expandPortSpec (str "80,443,") = Err e) /\
  (exists e, expandPortSpec (str "22, -80") = Err e).
Proof.
  split; [|split; [|split]].
  - apply (proj1 (C6_expand_malformed (str "  "))).
    apply Spaces_space, Spaces_space. constructor.
  - apply (proj1 (proj2 (C6_expand_malformed (str "1,,2"))) []).
    + vm_compute. right. left.
    + constructor.
  - apply (proj1 (proj2 (C6_expand_malformed (str "80,443,"))) []).
    + vm_compute. right. right. left.
    + constructor.
  - apply (proj2 (proj2 (C6_expand_malformed (str "22, -80"))) (str " -80") (str " ") (str "80")).
    + vm_compute. right. left.
    + reflexivity.
    + left. apply Spaces_space. constructor.
Defined.

(** C7: the text of a single-port token, and the text on either side of
    the first hyphen of a range token, must be read by [strconv.Atoi] as
    a base-10 integer within 1..65535.  A token with a text that is not
    a number, or a number out of range, makes the whole call return an
    error; and when the call succeeds every such text is, white space
    aside, a run of decimal digits (after an optional plus sign) whose
    value lies in 1..65535. *)
Theorem C7_expand_invalid_number (spec tok v : gostring) :
  tok ∈ Split spec "," ->
  v ∈ numericValues tok ->
  (Atoi (TrimSpace v) = None \/
     (exists n, Atoi (TrimSpace v) = Some n /\ (n < 1 \/ 65535 < n)) ->
   exists e, expandPortSpec spec = Err e) /\
  (forall l, expandPortSpec spec = Ok l ->
   exists ds n, (TrimSpace v = ds \/ TrimSpace v = "+" :: ds) /\
                ds <> [] /\ Forall isDigit ds /\
                parseDigits 0 ds = Some n /\ 1 <= n <= 65535).
Proof.
  intros Hin Hv. split.
  - intros Hbad. apply (expand_Err_token spec tok Hin).
    apply parseSinglePort_invalid in Hbad as [e He].
    destruct (tokenItem tok) as [it|] eqn:Hit; [|done].
    destruct (tokenItem_Some_values tok it v Hit Hv) as [n Hn]. congruence.
  - intros l Hl. apply expand_Ok_inv in Hl as (Hall & _).
    rewrite Forall_forall in Hall. destruct (Hall tok Hin) as [it Hit].
    destruct (tokenItem_Some_values tok it v Hit Hv) as [n Hn].
    apply parseSinglePort_Ok in Hn as (_ & Ha & Hr).
    apply Atoi_Some_inv in Ha as (ds & m & Hne & Hds & Hm & Hpos & Hs).
    exists ds, m. destruct Hs as [[Hs ->]|[[Hs ->]|[_ ->]]]; [| |lia].
    + split; [by left|]. done.
    + split; [by right|]. done.
Qed.

Lemma C7_expand_invalid_number_witness :
  (exists e, expandPortSpec (str "22,http") = Err e) /\
  (exists e, expandPortSpec (str "1-70000") = Err e) /\
  (exists e, expandPortSpec (str "0") = Err e).
Proof.
  split; [|split].
  - apply (C7_expand_invalid_number (str "22,http") (str "http") (str "http")).
    + vm_compute. right. left.
    + vm_compute. left.
    + left. vm_compute. reflexivity.
  - apply (C7_expand_invalid_number (str "1-70000") (str "1-70000") (str "70000")).
    + vm_compute. left.
    + vm_compute. right. left.
    + right. exists 70000. split; [vm_compute; reflexivity | lia].
  - apply (C7_expand_invalid_number (str "0") (str "0") (str "0")).
    + vm_compute. left.
    + vm_compute. left.
    + right. exists 0. split; [vm_compute; reflexivity | lia].
Defined.

(** C8: for a range token A-B whose bounds both parse as ports, among
    tokens that parse, [expandPortSpec] returns an error exactly when
    A > B; with A = B the range is valid and contributes the one port
    A. *)
Theorem C8_expand_range_order (pre post : list gostring) (l r : gostring) (a b : Z) :
  Forall (fun t => ("," ∉ t) /\ is_Some (tokenItem t)) (pre ++ post) ->
  parseSinglePort l = Ok a ->
  parseSinglePort r = Ok b ->
  ((exists e, expandPortSpec (Join (pre ++ (l ++ "-" :: r) :: post) ",") = Err e)
     <-> b < a) /\
  (a = b ->
     exists S, expandPortSpec (Join (pre ++ (l ++ "-" :: r) :: post) ",") = Ok S /\
               forall p, p ∈ S <-> p = a \/ denotes (pre ++ post) p).
Proof.
  intros Hall Hl Hr.
  pose proof (tokenItem_range_bounds l r a b Hl Hr) as Hit.
  set (tok := l ++ "-" :: r) in *.
  apply Forall_app in Hall as [Hpre Hpost].
  assert (Hsplit : Split (Join (pre ++ tok :: post) ",") "," = pre ++ tok :: post).
  { apply Split_Join; [by destruct pre|].
    apply Forall_app. split; [eapply Forall_impl; [exact Hpre|]; by intros ? [? _]|].
    constructor; [|eapply Forall_impl; [exact Hpost|]; by intros ? [? _]].
    unfold tok. intros [H|H]%elem_of_app.
    - by apply (parseSinglePort_Ok_no_comma l a) in H.
    - apply elem_of_cons in H as [H|H]; [done|].
      by apply (parseSinglePort_Ok_no_comma r b) in H. }
  assert (Hin : tok ∈ Split (Join (pre ++ tok :: post) ",") ",").
  { rewrite Hsplit. apply elem_of_app. right. by left. }
  assert (Hok : ~ b < a ->
            Forall (fun t => is_Some (tokenItem t)) (Split (Join (pre ++ tok :: post) ",") ",")).
  { intros Hab. rewrite Hsplit. apply Forall_app.
    split; [eapply Forall_impl; [exact Hpre|]; by intros ? [_ ?]|].
    constructor; [|eapply Forall_impl; [exact Hpost|]; by intros ? [_ ?]].
    rewrite Hit. replace (b <? a) with false by lia. by eexists. }
  split.
  - split.
    + intros [e He]. destruct (decide (b < a)) as [?|Hab]; [done|].
      destruct (expand_Ok _ (Hok Hab)) as (S & HS & _). congruence.
    + intros Hab. apply (expand_Err_token _ tok Hin).
      rewrite Hit. by replace (b <? a) with true by lia.
  - intros ->. destruct (expand_Ok _ (Hok ltac:(lia))) as (S & HS & _ & Hp).
    exists S. split; [done|]. intros p. rewrite Hp, Hsplit.
    rewrite (denotes_middle pre tok post (Range b b)).
    + simpl. split; (intros [?|?]; [left; lia | by right]).
    + rewrite Hit. by replace (b <? b) with false by lia.
Qed.

Lemma C8_expand_range_order_witness :
  (exists S, expandPortSpec (Join ([] ++ (str "100" ++ "-" :: str "100") :: []) ",") = Ok S /\
             forall p, p ∈ S <-> p = 100 \/ denotes ([] ++ []) p) /\
  (exists e, expandPortSpec (Join ([] ++ (str "5" ++ "-" :: str "3") :: []) ",") = Err e).
Proof.
  split.
  - apply (C8_expand_range_order [] [] (str "100") (str "100") 100 100).
    + constructor.
    + vm_compute. reflexivity.
    + vm_compute. reflexivity.
    + reflexivity.
  - apply (C8_expand_range_order [] [] (str "5") (str "3") 5 3).
    + constructor.
    + vm_compute. reflexivity.
    + vm_compute. reflexivity.
    + lia.
Defined.

(** C9: a single-port token with a leading plus sign is accepted:
    [expandPortSpec] on "+80" succeeds with the same result as on "80",
    the one port 80, because [strconv.Atoi] takes an optional sign. *)
Theorem C9_plus_sign_accepted :
  expandPortSpec (str "+80") = Ok [80] /\
  expandPortSpec (str "80") = Ok [80] /\
  Atoi (str "+80") = Some 80.
Proof. vm_compute. auto. Qed.

(** C10, as amended: a token with two hyphens or more makes
    [expandPortSpec] return an error.  The token is taken for a range
    and split at its first hyphen only; the right-hand part still has a
    hyphen and is never a port: [strconv.Atoi] either rejects it, or
    reads it as an integer that is not positive, which is out of range. *)
Theorem C10_expand_two_hyphens (spec tok : gostring) :
  tok ∈ Split spec "," ->
  (2 <= hyphens tok)%nat ->
  (exists e, expandPortSpec spec = Err e) /\
  Contains (TrimSpace tok) "-" = true /\
  exists p0 p1,
    SplitN (TrimSpace tok) "-" 2 = [p0; p1] /\ ("-" ∉ p0) /\ ("-" ∈ p1) /\
    (parseSinglePort (TrimSpace p1) = Err (InvalidPort (TrimSpace p1)) \/
     exists n, n <= 0 /\ Atoi (TrimSpace p1) = Some n /\
               parseSinglePort (TrimSpace p1) = Err (PortOutOfRange n)).
Proof.
  intros Hin H2. apply two_hyphens_split in H2 as (l & r & -> & Hl & Hr).
  split; [|split].
  - apply (expand_Err_token spec _ Hin). by apply tokenItem_second_hyphen.
  - rewrite TrimSpace_hyphen. apply Contains_elem_of, elem_of_app. right. by left.
  - exists (TrimLeftSpace l), (TrimRightSpace r).
    assert (Hl' : "-" ∉ TrimLeftSpace l).
    { intros H. by apply TrimLeftSpace_elem_of in H. }
    assert (Hr' : "-" ∈ TrimRightSpace r).
    { destruct (TrimRightSpace_split r) as (b & Hb & HWb & _).
      rewrite Hb in Hr. apply elem_of_app in Hr as [?|Hr]; [done|].
      apply (Spaces_elem_of _ _ HWb) in Hr. discriminate. }
    split; [|split; [done|split; [done|]]].
    + rewrite TrimSpace_hyphen. simpl. by rewrite Cut_app_sep.
    + rewrite parseSinglePort_TrimSpace.
      destruct (parseSinglePort_hyphen _ Hr') as [H|(n & Hn & Ha & H)].
      * by left.
      * right. by exists n.
Qed.

Lemma C10_expand_two_hyphens_witness :
  (exists e, expandPortSpec (str "22,80-90-100") = Err e) /\
  Contains (TrimSpace (str "80-90-100")) "-" = true /\
  exists p0 p1,
    SplitN (TrimSpace (str "80-90-100")) "-" 2 = [p0; p1] /\ ("-" ∉ p0) /\ ("-" ∈ p1) /\
    (parseSinglePort (TrimSpace p1) = Err (InvalidPort (TrimSpace p1)) \/
     exists n, n <= 0 /\ Atoi (TrimSpace p1) = Some n /\
               parseSinglePort (TrimSpace p1) = Err (PortOutOfRange n)).
Proof.
  apply (C10_expand_two_hyphens (str "22,80-90-100") (str "80-90-100")).
  - vm_compute. right. left.
  - vm_compute. lia.
Defined.

(** C10, as stated, fails at the token "80--90": the part after the
    first hyphen, "-90", does parse as an integer; the call fails
    because -90 is out of range. *)
Lemma C10_right_side_integer_counterexample :
  (2 <= hyphens (str "80--90"))%nat /\
  SplitN (TrimSpace (str "80--90")) "-" 2 = [str "80"; str "-90"] /\
  Atoi (TrimSpace (str "-90")) = Some (-90) /\
  ~ rightSideNotInteger (str "80--90") /\
  expandPortSpec (str "80--90") =
    Err (InvalidRangeTok (str "80--90")
           (InvalidRightBound (str "-90") (PortOutOfRange (-90)))).
Proof.
  split; [vm_compute; lia|]. split; [vm_compute; reflexivity|].
  split; [vm_compute; reflexivity|]. split; [|vm_compute; reflexivity].
  intros H. specialize (H (str "80") (str "-90")).
  assert (Hs : SplitN (TrimSpace (str "80--90")) "-" 2 = [str "80"; str "-90"])
    by (vm_compute; reflexivity).
  apply H in Hs. vm_compute in Hs. discriminate.
Qed.

(** * Further properties of the code *)

(** ** [parseSinglePort] and [parsePortRange] *)

Lemma TrimSpace_pad a s b : Spaces a -> Spaces b -> TrimSpace (a ++ s ++ b) = TrimSpace s.
Proof.
  intros Ha Hb. unfold TrimSpace at 1. rewrite TrimLeftSpace_Spaces by done.
  fold (TrimSpace (s ++ b)).
  rewrite <- TrimSpace_TrimRightSpace, TrimRightSpace_Spaces by done.
  apply TrimSpace_TrimRightSpace.
Qed.

Lemma Atoi_plus ds n :
  ds <> [] -> parseDigits 0 ds = Some n -> n <= maxInt -> Atoi ("+" :: ds) = Some n.
Proof.
  intros Hne Hval Hmax. apply parseDigits_Some in Hval as Hpos; [|done].
  destruct Hpos as [_ Hpos]. unfold Atoi. simpl.
  unfold signedDigits. destruct ds as [|c ds]; [done|]. rewrite Hval.
  replace (1 * n) with n by lia.
  assert (minInt <= n) by (unfold minInt, intSize; simpl; lia).
  replace ((minInt <=? n) && (n <=? maxInt)) with true by lia. done.
Qed.

(** X1: [parseSinglePort] returns the port [n] exactly when the token,
    white space aside, is a run of decimal digits, after one optional
    plus sign, whose value is [n] and lies in 1..65535. *)
Theorem X1_parseSinglePort_accepts (token : gostring) (n : Z) :
  parseSinglePort token = Ok n <->
  exists ds, (TrimSpace token = ds \/ TrimSpace token = "+" :: ds) /\
             ds <> [] /\ Forall isDigit ds /\
             parseDigits 0 ds = Some n /\ 1 <= n <= 65535.
Proof.
  split.
  - intros H. apply parseSinglePort_Ok in H as (_ & Ha & Hr).
    apply Atoi_Some_inv in Ha as (ds & m & Hne & Hds & Hm & Hpos & Hs).
    exists ds. destruct Hs as [[Hs ->]|[[Hs ->]|[_ ->]]]; [| |lia].
    + split; [by left | done].
    + split; [by right | done].
  - intros (ds & Hs & Hne & Hds & Hval & Hr).
    apply parseSinglePort_Atoi; [|done].
    assert (Hmax : n <= maxInt) by (unfold maxInt, intSize; simpl; lia).
    destruct Hs as [->| ->].
    + apply Atoi_digits; try done. lia.
    + by apply Atoi_plus.
Qed.

Lemma X1_parseSinglePort_accepts_witness :
  parseSinglePort (str " +0443 ") = Ok 443.
Proof.
  apply (proj2 (X1_parseSinglePort_accepts (str " +0443 ") 443)).
  exists (str "0443"). split; [right; vm_compute; reflexivity|].
  split; [done|]. split.
  - repeat constructor; by eexists.
  - split; [vm_compute; reflexivity | lia].
Defined.

Lemma TrimSpace_ends c (ds : gostring) :
  spaceByte c = false -> ds <> [] -> Forall isDigit ds -> TrimSpace (c :: ds) = c :: ds.
Proof.
  intros Hc Hne Hds. unfold TrimSpace.
  rewrite TrimLeftSpace_nohead by by apply codeWidth_nonspace_head.
  destruct ds as [|d ds _] using rev_ind; [done|].
  apply TrimRightSpace_notail.
  apply Forall_app in Hds as [_ Hd]. apply Forall_cons in Hd as [[v Hv] _].
  apply digit_facts in Hv as (_ & Hv & _).
  change (c :: ds ++ [d]) with ((c :: ds) ++ [d]).
  by apply codeWidth_nonspace_last.
Qed.

(** [strconv.Atoi] reads back what [strconv.Itoa] writes. *)
Lemma Atoi_Itoa n :
  minInt <= n <= maxInt ->
  Itoa n <> [] /\ TrimSpace (Itoa n) = Itoa n /\ Atoi (Itoa n) = Some n.
Proof.
  intros Hn. destruct (Z.ltb_spec n 0) as [Hneg|Hpos].
  - unfold Itoa. replace (n <? 0) with true by lia.
    destruct (itoaDigits_spec (S (Z.to_nat (- n))) (- n) []) as (ds & Heq & Hne & Hall & Hval).
    { done. }
    { pose proof (lt_pow10 (Z.to_nat (- n))). lia. }
    rewrite Heq, app_nil_r. split; [done|]. split.
    + by apply TrimSpace_ends.
    + assert (Hv : parseDigits 0 ds = Some (- n)) by (rewrite Hval; f_equal; lia).
      change (Atoi ("-" :: ds)) with (signedDigits (-1) ds).
      unfold signedDigits. destruct ds as [|c ds]; [done|]. rewrite Hv. cbv zeta.
      assert (E : -1 * - n = n) by lia. rewrite E.
      replace ((minInt <=? n) && (n <=? maxInt)) with true by lia. done.
  - destruct (Itoa_digits n Hpos) as (Hne & Hall & Hval).
    split; [done|]. split; [by apply TrimSpace_digits|].
    apply Atoi_digits; try done; lia.
Qed.

Lemma parseSinglePort_Itoa n :
  minInt <= n <= maxInt ->
  parseSinglePort (Itoa n) =
    if (1 <=? n) && (n <=? 65535) then Ok n else Err (PortOutOfRange n).
Proof.
  intros Hn. destruct (Atoi_Itoa n Hn) as (Hne & Ht & Ha).
  unfold parseSinglePort. rewrite Ht, Ha.
  apply is_empty_false in Hne. by rewrite Hne.
Qed.

(** X2: the decimal rendering of any [int] is parsed back by
    [parseSinglePort] to the same number: it is returned when it lies in
    1..65535, and reported as out of range otherwise (0 and 65536
    included). *)
Theorem X2_parseSinglePort_Itoa (n : Z) :
  minInt <= n <= maxInt ->
  parseSinglePort (Itoa n) =
    if (1 <=? n) && (n <=? 65535) then Ok n else Err (PortOutOfRange n).
Proof. apply parseSinglePort_Itoa. Qed.

Lemma X2_parseSinglePort_Itoa_witness :
  parseSinglePort (Itoa 65536) = Err (PortOutOfRange 65536) /\
  parseSinglePort (Itoa 0) = Err (PortOutOfRange 0) /\
  parseSinglePort (Itoa 65535) = Ok 65535.
Proof.
  split; [|split].
  - apply (X2_parseSinglePort_Itoa 65536). vm_compute. split; discriminate.
  - apply (X2_parseSinglePort_Itoa 0). vm_compute. split; discriminate.
  - apply (X2_parseSinglePort_Itoa 65535). vm_compute. split; discriminate.
Defined.

Lemma parsePortRange_TrimSpace token : parsePortRange (TrimSpace token) = parsePortRange token.
Proof. unfold parsePortRange. by rewrite TrimSpace_idem. Qed.

(** X3: white space (Unicode white space included) around the argument
    is ignored by [parseSinglePort], [parsePortRange] and
    [expandPortSpec]: results and errors are the same. *)
Theorem X3_surrounding_space_ignored (a s b : gostring) :
  Spaces a -> Spaces b ->
  parseSinglePort (a ++ s ++ b) = parseSinglePort s /\
  parsePortRange (a ++ s ++ b) = parsePortRange s /\
  expandPortSpec (a ++ s ++ b) = expandPortSpec s.
Proof.
  intros Ha Hb. pose proof (TrimSpace_pad a s b Ha Hb) as Ht.
  unfold parseSinglePort, parsePortRange, expandPortSpec. by rewrite Ht.
Qed.

Lemma X3_surrounding_space_ignored_witness :
  parseSinglePort (str "  " ++ str "80" ++ str " ") = parseSinglePort (str "80") /\
  parsePortRange (str "  " ++ str "80" ++ str " ") = parsePortRange (str "80") /\
  expandPortSpec (str "  " ++ str "80" ++ str " ") = expandPortSpec (str "80").
Proof.
  apply X3_surrounding_space_ignored.
  - apply Spaces_space, Spaces_space. constructor.
  - apply Spaces_space. constructor.
Defined.

(** X4: [parsePortRange] returns [(start, end)] exactly when the token,
    white space aside, is two texts around its first hyphen that
    [parseSinglePort] reads as [start] and [end], with [start <= end];
    the bounds it returns lie in 1..65535. *)
Theorem X4_parsePortRange_accepts (token : gostring) (a b : Z) :
  (parsePortRange token = Ok (a, b) <->
   exists l r, TrimSpace token = l ++ "-" :: r /\ ("-" ∉ l) /\
               parseSinglePort l = Ok a /\ parseSinglePort r = Ok b /\ a <= b) /\
  (parsePortRange token = Ok (a, b) -> 1 <= a /\ a <= b /\ b <= 65535).
Proof.
  assert (Hfwd : parsePortRange token = Ok (a, b) ->
            exists l r, TrimSpace token = l ++ "-" :: r /\ ("-" ∉ l) /\
               parseSinglePort l = Ok a /\ parseSinglePort r = Ok b /\ a <= b).
  { intros H. apply parsePortRange_Ok in H as (l & r & Hcut & Hl & Hr & Hab).
    apply Cut_Some in Hcut as [Heq Hnl]. by exists l, r. }
  split; [split; [done|]|].
  - intros (l & r & Heq & Hnl & Hl & Hr & Hab).
    rewrite <- parsePortRange_TrimSpace, Heq, parsePortRange_parts by done. cbv zeta.
    rewrite Hl, Hr.
    apply parseSinglePort_Ok in Hl as (Hl & _). apply parseSinglePort_Ok in Hr as (Hr & _).
    apply is_empty_false in Hl, Hr. rewrite Hl, Hr. simpl.
    by replace (b <? a) with false by lia.
  - intros H. destruct (Hfwd H) as (l & r & _ & _ & Hl & Hr & Hab).
    apply parseSinglePort_Ok in Hl as (_ & _ & Hl).
    apply parseSinglePort_Ok in Hr as (_ & _ & Hr). lia.
Qed.

Lemma X4_parsePortRange_accepts_witness :
  parsePortRange (str " 20 - 25 ") = Ok (20, 25) /\ (1 <= 20 /\ 20 <= 25 /\ 25 <= 65535).
Proof.
  assert (H : parsePortRange (str " 20 - 25 ") = Ok (20, 25)).
  { apply (proj2 (proj1 (X4_parsePortRange_accepts (str " 20 - 25 ") 20 25))).
    exists (str "20 "), (str " 25").
    split; [vm_compute; reflexivity|]. split.
    - apply Contains_false. vm_compute. reflexivity.
    - split; [vm_compute; reflexivity|]. split; [vm_compute; reflexivity | lia]. }
  split; [exact H|].
  exact (proj2 (X4_parsePortRange_accepts (str " 20 - 25 ") 20 25) H).
Defined.

(** ** [expandPortSpec] *)

Lemma parseSinglePort_Err token e :
  TrimSpace token <> [] -> parseSinglePort token = Err e -> portError e = true.
Proof.
  intros Hne. unfold parseSinglePort. apply is_empty_false in Hne. rewrite Hne.
  destruct (Atoi (TrimSpace token)) as [n|]; [|by intros [= <-]].
  destruct ((1 <=? n) && (n <=? 65535)); [done | by intros [= <-]].
Qed.

Lemma parsePortRange_Err (token : gostring) e :
  "-" ∈ token -> parsePortRange token = Err e -> rangeError e = true.
Proof.
  intros Hin. apply elem_of_sep in Hin as (l & r & -> & Hl).
  rewrite parsePortRange_parts by done. cbv zeta.
  destruct (is_empty (TrimSpace l)) eqn:Hel; [by intros [= <-]|].
  destruct (is_empty (TrimSpace r)) eqn:Her; [by intros [= <-]|]. simpl.
  apply is_empty_false in Hel, Her.
  destruct (parseSinglePort l) as [a|el] eqn:Hpl.
  2: { intros [= <-]. simpl. exact (parseSinglePort_Err l el Hel Hpl). }
  destruct (parseSinglePort r) as [b|er] eqn:Hpr.
  2: { intros [= <-]. simpl. exact (parseSinglePort_Err r er Her Hpr). }
  destruct (b <? a); [by intros [= <-] | done].
Qed.

Lemma parseTokens_Err_kind toks i singles ranges e :
  parseTokens i toks singles ranges = Err e -> specError e = true.
Proof.
  revert i singles ranges. induction toks as [|t toks IH]; intros i singles ranges; [done|].
  simpl. destruct (is_empty (TrimSpace t)) eqn:He; [by intros [= <-]|].
  apply is_empty_false in He.
  destruct (Contains (TrimSpace t) "-") eqn:Hc.
  - apply Contains_elem_of in Hc.
    destruct (parsePortRange (TrimSpace t)) as [[a b]|er] eqn:Hr; [apply IH|].
    intros [= <-]. simpl. by eapply parsePortRange_Err.
  - destruct (parseSinglePort (TrimSpace t)) as [n|ep] eqn:Hp; [apply IH|].
    intros [= <-]. simpl. eapply parseSinglePort_Err; [|exact Hp].
    by rewrite TrimSpace_idem.
Qed.

(** X5: the errors [expandPortSpec] returns are the empty-specification
    error, an empty-token error, or a token error wrapping an
    unparsable number, a number out of range, blank range bounds or an
    inverted range.  The errors "empty port token", "empty range token"
    and "invalid range (need A-B)" of the two helpers never come out of
    it: it calls them on trimmed, non-empty texts only, and
    [parsePortRange] only on a token with a hyphen. *)
Theorem X5_expand_error_kinds (spec : gostring) (e : error) :
  expandPortSpec spec = Err e -> specError e = true.
Proof.
  unfold expandPortSpec. destruct (is_empty (TrimSpace spec)); [by intros [= <-]|].
  destruct (parseTokens 0 (Split (TrimSpace spec) ",") [] []) as [[s r]|e'] eqn:Hp; [done|].
  intros [= <-]. by eapply parseTokens_Err_kind.
Qed.

Lemma X5_expand_error_kinds_witness :
  specError (InvalidRangeTok (str "-80") (InvalidRangeBounds (str "-80"))) = true.
Proof.
  apply (X5_expand_error_kinds (str "22, -80")). vm_compute. reflexivity.
Defined.

Lemma parseTokens_app_ok pre rest i singles ranges :
  Forall (fun tok => is_Some (tokenItem tok)) pre ->
  exists singles' ranges',
    parseTokens i (pre ++ rest) singles ranges
    = parseTokens (i + length pre) rest singles' ranges'.
Proof.
  revert i singles ranges. induction pre as [|t pre IH]; intros i singles ranges Hall.
  - exists singles, ranges. simpl. by rewrite Nat.add_0_r.
  - apply Forall_cons in Hall as [[it Hit] Hall]. simpl.
    unfold tokenItem in Hit.
    destruct (is_empty (TrimSpace t)); [done|].
    destruct (Contains (TrimSpace t) "-").
    + destruct (parsePortRange (TrimSpace t)) as [[a b]|]; [|done].
      destruct (IH (S i) singles (ranges ++ [(a, b)]) Hall) as (s' & r' & ->).
      exists s', r'. f_equal. lia.
    + destruct (parseSinglePort (TrimSpace t)) as [n|]; [|done].
      destruct (IH (S i) (singles ++ [n]) ranges Hall) as (s' & r' & ->).
      exists s', r'. f_equal. lia.
Qed.

Lemma parseTokens_first_bad tok rest rest' i singles ranges :
  tokenItem tok = None ->
  parseTokens i (tok :: rest) singles ranges = parseTokens i (tok :: rest') singles ranges.
Proof.
  intros Hnone. simpl. unfold tokenItem in Hnone.
  destruct (is_empty (TrimSpace tok)); [done|].
  destruct (Contains (TrimSpace tok) "-").
  - by destruct (parsePortRange (TrimSpace tok)) as [[a b]|].
  - by destruct (parseSinglePort (TrimSpace tok)).
Qed.

Lemma Spaces_no_comma (tok : gostring) : Spaces tok -> "," ∉ tok.
Proof.
  intros Hs Hin. apply (Spaces_elem_of _ _ Hs) in Hin. discriminate.
Qed.

Lemma blank_tokens s : TrimSpace s = [] <-> map TrimSpace (Split s ",") = [[]].
Proof.
  split.
  - intros H. pose proof H as Hs. apply TrimSpace_Spaces, Spaces_no_comma in Hs.
    rewrite Split_nosep by done. simpl. by rewrite H.
  - intros H. destruct (Split s ",") as [|t [|t' toks]] eqn:Hsp; try done.
    simpl in H. injection H as H.
    rewrite <- (Join_Split s ","), Hsp. done.
Qed.

(** X6: the loop of [expandPortSpec] stops at the first token that does
    not parse.  When the tokens before it parse, the tokens after it
    have no effect on the error returned; and when that token is blank
    the error is "empty token at position i" with i the number of tokens
    before it. *)
Theorem X6_expand_first_bad_token (pre post : list gostring) (tok : gostring) :
  Forall (fun t => ("," ∉ t) /\ is_Some (tokenItem t)) pre ->
  Forall (fun t => "," ∉ t) (tok :: post) ->
  tokenItem tok = None ->
  (TrimSpace tok <> [] \/ pre <> [] ->
     expandPortSpec (Join (pre ++ tok :: post) ",")
     = expandPortSpec (Join (pre ++ [tok]) ",")) /\
  (Spaces tok -> pre ++ post <> [] ->
     expandPortSpec (Join (pre ++ tok :: post) ",") = Err (EmptyTokenAt (length pre))).
Proof.
  intros Hpre Hpost Hnone.
  assert (Hpre1 : Forall (fun t => "," ∉ t) pre)
    by (eapply Forall_impl; [exact Hpre|]; by intros ? [? _]).
  assert (Hpre2 : Forall (fun t => is_Some (tokenItem t)) pre)
    by (eapply Forall_impl; [exact Hpre|]; by intros ? [_ ?]).
  assert (Hsplit : forall rest, Forall (fun t => "," ∉ t) (tok :: rest) ->
            Split (Join (pre ++ tok :: rest) ",") "," = pre ++ tok :: rest).
  { intros rest Hrest. apply Split_Join; [by destruct pre|]. by apply Forall_app. }
  assert (Hexp : forall rest, Forall (fun t => "," ∉ t) (tok :: rest) ->
            TrimSpace tok <> [] \/ pre ++ rest <> [] ->
            exists s' r', expandPortSpec (Join (pre ++ tok :: rest) ",")
              = match parseTokens (0 + length pre) [tok] s' r' with
                | Err err => Err err
                | Ok (singles, ranges) =>
                    Ok (sortInts (mapKeys (addRanges (addSingles ∅ singles) ranges)))
                end).
  { intros rest Hrest Hnb. rewrite expandPortSpec_tokens, Hsplit by done.
    assert (Hne : TrimSpace (Join (pre ++ tok :: rest) ",") <> []).
    { intros Hb. apply blank_tokens in Hb. rewrite Hsplit in Hb by done.
      destruct pre as [|t pre']; simpl in Hb.
      - injection Hb as Hb1 Hb2. apply map_eq_nil in Hb2.
        destruct Hnb as [?|?]; [done|]. simpl in *. done.
      - injection Hb as _ Hb2. by destruct pre'. }
    apply is_empty_false in Hne. rewrite Hne.
    destruct (parseTokens_app_ok pre (tok :: rest) 0 [] [] Hpre2) as (s' & r' & ->).
    exists s', r'. by rewrite (parseTokens_first_bad tok rest []). }
  split.
  - intros Hnb.
    assert (Hone : Forall (fun t => "," ∉ t) [tok]).
    { apply Forall_cons in Hpost as [? _]. by constructor. }
    destruct (Hexp post Hpost) as (s1 & r1 & H1).
    { destruct Hnb as [?|?]; [by left|]. right. by destruct pre. }
    destruct (Hexp [] Hone) as (s2 & r2 & H2).
    { destruct Hnb as [?|?]; [by left|]. right. by destruct pre. }
    rewrite H1, H2. simpl. unfold tokenItem in Hnone.
    destruct (is_empty (TrimSpace tok)); [done|].
    destruct (Contains (TrimSpace tok) "-").
    + by destruct (parsePortRange (TrimSpace tok)) as [[a b]|].
    + by destruct (parseSinglePort (TrimSpace tok)).
  - intros Hsp Hne. destruct (Hexp post Hpost) as (s1 & r1 & H1); [by right|].
    rewrite H1. simpl. apply TrimSpace_Spaces in Hsp. by rewrite Hsp.
Qed.

Lemma X6_expand_first_bad_token_witness :
  expandPortSpec (Join ([str "22"; str "80"] ++ str " " :: [str "x"; str "9-1"]) ",")
  = Err (EmptyTokenAt 2).
Proof.
  apply (X6_expand_first_bad_token [str "22"; str "80"] [str "x"; str "9-1"] (str " ")).
  - repeat constructor; try (by eexists); apply Contains_false; reflexivity.
  - repeat constructor; apply Contains_false; reflexivity.
  - reflexivity.
  - apply Spaces_space. constructor.
  - done.
Defined.

(** X7: a successful [expandPortSpec] never returns an empty slice, and
    never more than 65535 ports. *)
Theorem X7_expand_size (spec : gostring) (l : list Z) :
  expandPortSpec spec = Ok l -> l <> [] /\ Z.of_nat (length l) <= 65535.
Proof.
  intros H. apply expand_Ok_inv in H as (Hall & Hs & Hp). split.
  - pose proof (Split_nonempty spec ",") as Hsp.
    destruct (Split spec ",") as [|t toks] eqn:Ht; [done|].
    apply Forall_cons in Hall as [[it Hit] _].
    destruct (tokenItem_covers t it Hit) as [p Hc].
    assert (Hin : p ∈ l).
    { apply Hp. exists t, it. split; [by left | done]. }
    intros ->. by apply elem_of_nil in Hin.
  - assert (Hsub : l ⊆+ seqZ 1 65535).
    { apply NoDup_submseteq; [by apply sorted_lt_NoDup|].
      intros p Hin. apply Hp, denotes_in_range in Hin. apply elem_of_seqZ. lia. }
    apply submseteq_length in Hsub. rewrite length_seqZ in Hsub. lia.
Qed.

Lemma X7_expand_size_witness :
  [80; 443] <> [] /\ Z.of_nat (length [80; 443]) <= 65535.
Proof.
  apply (X7_expand_size (str "443,80")). vm_compute. reflexivity.
Defined.

(** X8: [expandPortSpec] looks at the trimmed tokens only: two
    specifications whose comma-separated tokens agree up to surrounding
    white space give the same result, or the same error. *)
Theorem X8_expand_trimmed_tokens (s1 s2 : gostring) :
  map TrimSpace (Split s1 ",") = map TrimSpace (Split s2 ",") ->
  expandPortSpec s1 = expandPortSpec s2.
Proof.
  intros H. rewrite !expandPortSpec_tokens.
  assert (He : is_empty (TrimSpace s1) = is_empty (TrimSpace s2)).
  { destruct (TrimSpace s1) as [|c t] eqn:H1.
    - apply blank_tokens in H1. rewrite H in H1. apply blank_tokens in H1. by rewrite H1.
    - destruct (TrimSpace s2) as [|c' t'] eqn:H2; [|done].
      apply blank_tokens in H2. rewrite <- H in H2. apply blank_tokens in H2. congruence. }
  rewrite He. by rewrite (parseTokens_TrimSpace _ _ _ _ _ H).
Qed.

Lemma X8_expand_trimmed_tokens_witness :
  expandPortSpec (str " 80 ,443- 445,x") = expandPortSpec (str "80, 443- 445 , x ").
Proof.
  apply X8_expand_trimmed_tokens. vm_compute. reflexivity.
Defined.

Lemma Split_app x y c : Split (x ++ c :: y) c = Split x c ++ Split y c.
Proof.
  induction x as [|a x IH]; simpl.
  - by rewrite Ascii.eqb_refl.
  - destruct (Ascii.eqb a c); [by rewrite IH|].
    rewrite IH. pose proof (Split_nonempty x c).
    by destruct (Split x c).
Qed.

Lemma denotes_app toks1 toks2 p :
  denotes (toks1 ++ toks2) p <-> denotes toks1 p \/ denotes toks2 p.
Proof.
  unfold denotes. split.
  - intros (tok & it & Hin & Hrest). apply elem_of_app in Hin as [Hin|Hin].
    + left. by exists tok, it.
    + right. by exists tok, it.
  - intros [(tok & it & Hin & Hrest)|(tok & it & Hin & Hrest)];
      exists tok, it; (split; [apply elem_of_app; auto | done]).
Qed.

(** X9: joining two specifications with a comma gives the union: the
    joined specification expands exactly when both parts do, and then to
    the ports of either. *)
Theorem X9_expand_union (s1 s2 : gostring) :
  (forall l, expandPortSpec (s1 ++ "," :: s2) = Ok l ->
     exists l1 l2, expandPortSpec s1 = Ok l1 /\ expandPortSpec s2 = Ok l2 /\
                   forall p, p ∈ l <-> p ∈ l1 \/ p ∈ l2) /\
  (forall l1 l2, expandPortSpec s1 = Ok l1 -> expandPortSpec s2 = Ok l2 ->
     exists l, expandPortSpec (s1 ++ "," :: s2) = Ok l).
Proof.
  split.
  - intros l H. apply expand_Ok_inv in H as (Hall & _ & Hp).
    rewrite Split_app in Hall, Hp. apply Forall_app in Hall as [H1 H2].
    destruct (expand_Ok s1 H1) as (l1 & Hl1 & _ & Hp1).
    destruct (expand_Ok s2 H2) as (l2 & Hl2 & _ & Hp2).
    exists l1, l2. split; [done|]. split; [done|].
    intros p. by rewrite Hp, denotes_app, Hp1, Hp2.
  - intros l1 l2 H1 H2.
    apply expand_Ok_inv in H1 as (H1 & _). apply expand_Ok_inv in H2 as (H2 & _).
    destruct (expand_Ok (s1 ++ "," :: s2)) as (l & Hl & _); [|by exists l].
    rewrite Split_app. by apply Forall_app.
Qed.

Lemma X9_expand_union_witness :
  exists l1 l2, expandPortSpec (str "80-82") = Ok l1 /\ expandPortSpec (str "81,443") = Ok l2 /\
                forall p, p ∈ [80; 81; 82; 443] <-> p ∈ l1 \/ p ∈ l2.
Proof.
  apply (proj1 (X9_expand_union (str "80-82") (str "81,443")) [80; 81; 82; 443]).
  vm_compute. reflexivity.
Defined.

Lemma seqZ_sorted m n : StronglySorted Z.lt (seqZ m n).
Proof.
  destruct (Z.le_gt_cases n 0) as [Hn|Hn].
  { rewrite seqZ_nil by lia. constructor. }
  rewrite <- (Z2Nat.id n) by lia. generalize (Z.to_nat n). clear. intros k. revert m.
  induction k as [|k IH]; intros m; [constructor|].
  rewrite seqZ_cons by lia.
  replace (Z.pred (Z.of_nat (S k))) with (Z.of_nat k) by lia.
  constructor; [apply IH|]. apply Forall_forall. intros p Hp.
  apply elem_of_seqZ in Hp. lia.
Qed.

Lemma Itoa_no_hyphen p : 0 <= p -> "-" ∉ Itoa p.
Proof.
  intros Hp. destruct (Itoa_digits p Hp) as (_ & Hall & _).
  apply digits_no_byte; [done | apply not_digit_hyphen].
Qed.

(** X10: the specification "a-b", written with the decimal renderings of
    two ports a <= b, expands to the ports a, a+1, ..., b: the same list
    the loop of [main] builds from [-start a -end b]. *)
Theorem X10_expand_range (a b : Z) :
  1 <= a -> a <= b -> b <= 65535 ->
  expandPortSpec (Itoa a ++ "-" :: Itoa b) = Ok (Main.rangePlan a b).
Proof.
  intros Ha Hab Hb.
  assert (Hint : forall p, 1 <= p <= 65535 -> parseSinglePort (Itoa p) = Ok p).
  { intros p Hp. rewrite parseSinglePort_Itoa.
    - by replace ((1 <=? p) && (p <=? 65535)) with true by lia.
    - unfold minInt, maxInt, intSize. simpl. lia. }
  assert (Hit : tokenItem (Itoa a ++ "-" :: Itoa b) = Some (Range a b)).
  { rewrite (tokenItem_range_bounds _ _ a b) by (apply Hint; lia).
    by replace (b <? a) with false by lia. }
  assert (Hsplit : Split (Itoa a ++ "-" :: Itoa b) "," = [Itoa a ++ "-" :: Itoa b]).
  { apply Split_nosep. intros [H|H]%elem_of_app.
    - by apply Itoa_no_comma in H; [|lia].
    - apply elem_of_cons in H as [H|H]; [done|]. by apply Itoa_no_comma in H; [|lia]. }
  destruct (expand_Ok (Itoa a ++ "-" :: Itoa b)) as (l & Hl & Hs & Hp).
  { rewrite Hsplit. constructor; [by eexists | constructor]. }
  rewrite Hl. f_equal. apply sorted_lt_unique; [done | apply seqZ_sorted|].
  intros p. rewrite Hp, Hsplit. unfold Main.rangePlan. rewrite elem_of_seqZ.
  unfold denotes. split.
  - intros (tok & it & Hin & Hit' & Hc). apply list_elem_of_singleton in Hin as ->.
    rewrite Hit in Hit'. injection Hit' as <-. simpl in Hc. lia.
  - intros Hr. exists (Itoa a ++ "-" :: Itoa b), (Range a b).
    split; [by apply list_elem_of_singleton|]. split; [done|]. simpl. lia.
Qed.

Lemma X10_expand_range_witness :
  expandPortSpec (Itoa 8000 ++ "-" :: Itoa 8002) = Ok (Main.rangePlan 8000 8002).
Proof. apply X10_expand_range; lia. Defined.

(** X19: the order in which the runtime visits the keys of the map
    [seen] does not show in the result of [expandPortSpec]: sorting any
    arrangement of the keys gives the same strictly ascending slice. *)
Theorem X19_map_order_irrelevant (seen : gset Z) (keys : list Z) :
  keys ≡ₚ mapKeys seen ->
  sortInts keys = sortInts (mapKeys seen) /\
  StronglySorted Z.lt (sortInts keys) /\
  forall p, p ∈ sortInts keys <-> p ∈ seen.
Proof.
  intros H. rewrite (sortInts_perm _ _ H). split; [done|].
  split; [apply sortInts_mapKeys_sorted | apply sortInts_mapKeys_elem_of].
Qed.

Lemma X19_map_order_irrelevant_witness :
  sortInts (reverse (mapKeys ({[ 80; 22; 443 ]} : gset Z)))
  = sortInts (mapKeys ({[ 80; 22; 443 ]} : gset Z)).
Proof.
  apply (X19_map_order_irrelevant {[ 80; 22; 443 ]}
           (reverse (mapKeys ({[ 80; 22; 443 ]} : gset Z)))).
  apply reverse_Permutation.
Defined.

(** ** The pre-flight checks of [main] *)

Lemma buildPlan_Proceed f plan :
  Main.buildPlan f = Main.Proceed plan ->
  1 <= Main.start f <= 65535 /\ 1 <= Main.end_ f <= 65535 /\
  Main.start f <= Main.end_ f /\ 0 < Main.workers f /\ 1 <= Main.resbuf f /\
  (if is_empty (Main.portspec f) then plan = Main.rangePlan (Main.start f) (Main.end_ f)
   else expandPortSpec (Main.portspec f) = Ok plan).
Proof.
  unfold Main.buildPlan.
  destruct ((Main.start f <? 1) || (65535 <? Main.start f)) eqn:H1; [done|].
  destruct ((Main.end_ f <? 1) || (65535 <? Main.end_ f)) eqn:H2; [done|].
  destruct (Main.end_ f <? Main.start f) eqn:H3; [done|].
  destruct (Main.workers f <=? 0) eqn:H4; [done|].
  destruct (Main.resbuf f <? 1) eqn:H5; [done|].
  intros H. repeat (split; [lia|]).
  destruct (is_empty (Main.portspec f)); simpl in H.
  - by injection H as <-.
  - destruct (expandPortSpec (Main.portspec f)); [by injection H as <- | done].
Qed.

Lemma plan_well_formed (f : Main.flags) (plan : list Z) :
  Main.buildPlan f = Main.Proceed plan ->
  plan <> [] /\ StronglySorted Z.lt plan /\ Forall (fun p => 1 <= p <= 65535) plan /\
  0 < Main.workers f /\ 1 <= Main.resbuf f.
Proof.
  intros H. apply buildPlan_Proceed in H as (Hs & He & Hse & Hw & Hr & Hplan).
  split; [|split; [|split; [|done]]]; destruct (is_empty (Main.portspec f)).
  - subst plan. unfold Main.rangePlan. rewrite seqZ_cons by lia. done.
  - pose proof Hplan as Hall. apply expand_Ok_inv in Hall as (Hall & _ & Hp).
    pose proof (Split_nonempty (Main.portspec f) ",") as Hsp.
    destruct (Split (Main.portspec f) ",") as [|t toks] eqn:Ht; [done|].
    apply Forall_cons in Hall as [[it Hit] _].
    destruct (tokenItem_covers t it Hit) as [p Hc].
    assert (Hin : p ∈ plan).
    { apply Hp. exists t, it. split; [by left | done]. }
    intros ->. by apply elem_of_nil in Hin.
  - subst plan. apply seqZ_sorted.
  - by apply expand_Ok_inv in Hplan as (_ & Hsorted & _).
  - subst plan. apply Forall_forall. intros p Hp. apply elem_of_seqZ in Hp. lia.
  - apply expand_Ok_inv in Hplan as (_ & _ & Hp).
    apply Forall_forall. intros p Hin. by apply Hp, denotes_in_range in Hin.
Qed.

(** X11: whenever [main] gets past its checks, the plan it scans is not
    empty, strictly ascending (so without duplicates) and within
    1..65535, whether it comes from [-ports] or from [-start]/[-end];
    and there is at least one worker and room for one result. *)
Theorem X11_plan_well_formed (f : Main.flags) (plan : list Z) :
  Main.buildPlan f = Main.Proceed plan ->
  plan <> [] /\ StronglySorted Z.lt plan /\ Forall (fun p => 1 <= p <= 65535) plan /\
  0 < Main.workers f /\ 1 <= Main.resbuf f.
Proof. apply plan_well_formed. Qed.

Lemma X11_plan_well_formed_witness :
  [22; 80] <> [] /\ StronglySorted Z.lt [22; 80] /\
  Forall (fun p => 1 <= p <= 65535) [22; 80] /\ 0 < 100 /\ 1 <= 1024.
Proof.
  apply (X11_plan_well_formed (Main.mkFlags 1 1024 100 1024 (str "80,22"))).
  vm_compute. reflexivity.
Defined.

(** X12: [-ports] overrides [-start] and [-end] only once these pass
    their own checks.  With a non-empty [-ports] and the same [-workers]
    and [-resbuf], any two valid pairs of [-start] and [-end] give the
    same outcome; but a [-start] or [-end] out of 1..65535, or a
    [-start] above [-end], ends the run before [-ports] is looked at. *)
Theorem X12_ports_override (f : Main.flags) :
  (forall s e,
     Main.portspec f <> [] ->
     1 <= Main.start f <= 65535 -> 1 <= Main.end_ f <= 65535 ->
     Main.start f <= Main.end_ f ->
     1 <= s <= 65535 -> 1 <= e <= 65535 -> s <= e ->
     Main.buildPlan (Main.mkFlags s e (Main.workers f) (Main.resbuf f) (Main.portspec f))
     = Main.buildPlan f) /\
  (Main.start f < 1 \/ 65535 < Main.start f \/ Main.end_ f < 1 \/ 65535 < Main.end_ f
   \/ Main.end_ f < Main.start f ->
   exists e, Main.buildPlan f = Main.Fatal e /\
             (e = Main.InvalidStartPort (Main.start f) \/
              e = Main.InvalidEndPort (Main.end_ f) \/
              e = Main.StartAfterEnd (Main.start f) (Main.end_ f))).
Proof.
  split.
  - intros s e Hne Hs He Hse Hs' He' Hse'. unfold Main.buildPlan. simpl.
    replace ((s <? 1) || (65535 <? s)) with false by lia.
    replace ((e <? 1) || (65535 <? e)) with false by lia.
    replace (e <? s) with false by lia.
    replace ((Main.start f <? 1) || (65535 <? Main.start f)) with false by lia.
    replace ((Main.end_ f <? 1) || (65535 <? Main.end_ f)) with false by lia.
    replace (Main.end_ f <? Main.start f) with false by lia.
    apply is_empty_false in Hne. by rewrite Hne.
  - intros Hbad. unfold Main.buildPlan.
    destruct ((Main.start f <? 1) || (65535 <? Main.start f)) eqn:H1; [eauto|].
    destruct ((Main.end_ f <? 1) || (65535 <? Main.end_ f)) eqn:H2; [eauto 6|].
    destruct (Main.end_ f <? Main.start f) eqn:H3; [eauto 6|]. lia.
Qed.

Lemma X12_ports_override_witness :
  Main.buildPlan (Main.mkFlags 5 9 100 1024 (str "80"))
  = Main.buildPlan (Main.mkFlags 1 1024 100 1024 (str "80")) /\
  exists e, Main.buildPlan (Main.mkFlags 0 1024 100 1024 (str "80")) = Main.Fatal e /\
            (e = Main.InvalidStartPort 0 \/ e = Main.InvalidEndPort 1024 \/
             e = Main.StartAfterEnd 0 1024).
Proof.
  split.
  - apply (proj1 (X12_ports_override (Main.mkFlags 1 1024 100 1024 (str "80"))) 5 9);
      simpl; (done || lia).
  - apply (proj2 (X12_ports_override (Main.mkFlags 0 1024 100 1024 (str "80")))).
    simpl. lia.
Defined.

(** X13: with flags that pass the numeric checks, an empty [-ports]
    makes the plan the [end - start + 1] ports from [-start] to [-end],
    while a [-ports] that is not empty but blank ends the run with
    "ports: empty ports spec": it does not fall back to the range. *)
Theorem X13_empty_and_blank_ports (f : Main.flags) :
  1 <= Main.start f <= 65535 -> 1 <= Main.end_ f <= 65535 ->
  Main.start f <= Main.end_ f -> 0 < Main.workers f -> 1 <= Main.resbuf f ->
  (Main.portspec f = [] ->
     Main.buildPlan f = Main.Proceed (Main.rangePlan (Main.start f) (Main.end_ f)) /\
     Z.of_nat (length (Main.rangePlan (Main.start f) (Main.end_ f)))
     = Main.end_ f - Main.start f + 1) /\
  (Main.portspec f <> [] -> Spaces (Main.portspec f) ->
     Main.buildPlan f = Main.Fatal (Main.PortsError EmptyPortsSpec)).
Proof.
  intros Hs He Hse Hw Hr.
  assert (Hb : Main.buildPlan f =
            if negb (is_empty (Main.portspec f)) then
              match expandPortSpec (Main.portspec f) with
              | Err err => Main.Fatal (Main.PortsError err)
              | Ok ps => Main.Proceed ps
              end
            else Main.Proceed (Main.rangePlan (Main.start f) (Main.end_ f))).
  { unfold Main.buildPlan.
    replace ((Main.start f <? 1) || (65535 <? Main.start f)) with false by lia.
    replace ((Main.end_ f <? 1) || (65535 <? Main.end_ f)) with false by lia.
    replace (Main.end_ f <? Main.start f) with false by lia.
    replace (Main.workers f <=? 0) with false by lia.
    by replace (Main.resbuf f <? 1) with false by lia. }
  split.
  - intros Hempty. rewrite Hb, Hempty. simpl. split; [done|].
    unfold Main.rangePlan. rewrite length_seqZ. lia.
  - intros Hne Hblank. rewrite Hb. apply is_empty_false in Hne. rewrite Hne. simpl.
    by rewrite expand_blank by by apply TrimSpace_Spaces.
Qed.

Lemma X13_empty_and_blank_ports_witness :
  Main.buildPlan (Main.mkFlags 1 1024 100 1024 (str " "))
  = Main.Fatal (Main.PortsError EmptyPortsSpec).
Proof.
  apply (X13_empty_and_blank_ports (Main.mkFlags 1 1024 100 1024 (str " ")));
    simpl; try lia; [done|].
  apply Spaces_space. constructor.
Defined.

(** ** The scan engine, further *)

Module ScanMore.
Import Scan ScanOn.

Lemma Forall_Done_lookup (pool : list wstate) i w :
  Forall (fun w => w = Done) pool -> pool !! i = Some w -> w = Done.
Proof. intros Hall Hi. by apply (Forall_lookup_1 _ _ _ _ Hall Hi). Qed.

Lemma elem_of_insert_inv (pool : list wstate) i w x :
  x ∈ <[ i := w ]> pool -> x = w \/ x ∈ pool.
Proof.
  revert i. induction pool as [|v pool IH]; intros [|i]; simpl; auto.
  - intros [->|H]%elem_of_cons; [by left | right; by right].
  - intros [->|H]%elem_of_cons; [right; by left|].
    destruct (IH i H) as [?|?]; [by left | right; by right].
Qed.

Lemma step_wellFormed workers resbuf s s' :
  step workers resbuf s s' -> wellFormed workers resbuf s -> wellFormed workers resbuf s'.
Proof.
  intros Hstep (Hlen & Hpc & Hrc & Hfeed & Hdone & Hclosed & Hret).
  destruct Hstep; unfold wellFormed, set_pool; simpl; rewrite ?length_insert.
  all: repeat match goal with |- _ /\ _ => split end.
  all: try done.
  all: try (rewrite length_app; simpl; lia).
  all: try (repeat match goal with
                   | H : _ = _ :: _ |- _ => rewrite H in *; clear H
                   end; simpl in *; lia).
  all: intros.
  all: repeat match goal with
       | H : Done ∈ <[ _ := _ ]> _ |- _ =>
           apply elem_of_insert_inv in H as [?|?]; [discriminate|]
       end.
  all: try match goal with
       | Hc : results_closed ?s = true, Hi : pool ?s !! _ = Some _ |- _ =>
           pose proof (Forall_Done_lookup _ _ _ (Hclosed Hc) Hi); discriminate
       | Hl : returned ?s = Some _, Hi : pool ?s !! _ = Some _ |- _ =>
           destruct (Hret _ Hl) as [Hx _];
           pose proof (Forall_Done_lookup _ _ _ (Hclosed Hx) Hi); discriminate
       end.
  all: try match goal with
       | Hin : Done ∈ pool ?s |- _ => destruct (Hdone Hin) as [Hx Hy]
       end.
  all: try match goal with
       | Hx : ports_closed ?s = true, H : feed ?s = _ :: _ |- _ =>
           rewrite (Hfeed Hx) in H; discriminate
       | Hy : ports_ch ?s = [], H : ports_ch ?s = _ :: _ |- _ =>
           rewrite Hy in H; discriminate
       end.
  all: try done.
  all: try (by apply Hfeed).
  all: try (by apply Hclosed).
  all: try match goal with
       | Hl : returned ?s = Some _ |- _ => destruct (Hret _ Hl) as [Hx Hy]; done
       end.
Qed.

Lemma init_wellFormed plan workers resbuf : wellFormed workers resbuf (init plan workers).
Proof.
  unfold wellFormed, init. simpl. rewrite length_replicate.
  split; [done|]. split; [lia|]. split; [lia|]. split; [done|].
  split; [|done]. intros Hin. apply elem_of_replicate in Hin as [? _]. done.
Qed.

Lemma reachable_wellFormed plan workers resbuf s :
  reachable plan workers resbuf s -> wellFormed workers resbuf s.
Proof.
  unfold reachable. revert s. apply (rtc_ind_r (wellFormed workers resbuf)).
  - apply init_wellFormed.
  - intros s1 s2 _ Hstep Hwf. by eapply step_wellFormed.
Qed.

Lemma concat_map_insert (g : wstate -> list Z) pool i w w' :
  pool !! i = Some w ->
  exists X, concat (map g pool) ≡ₚ g w ++ X /\
            concat (map g (<[ i := w' ]> pool)) ≡ₚ g w' ++ X.
Proof.
  revert i. induction pool as [|v pool IH]; intros [|i] Hi; try done; simpl in *.
  - injection Hi as ->. by exists (concat (map g pool)).
  - destruct (IH i Hi) as (X & H1 & H2). exists (g v ++ X). split.
    + rewrite H1. solve_Permutation.
    + rewrite H2. solve_Permutation.
Qed.

Lemma filter_open_cons (open : Z -> bool) p l :
  filter (fun p => open p = true) (p :: l)
  = (if open p then [p] else []) ++ filter (fun p => open p = true) l.
Proof.
  rewrite filter_cons. destruct (decide (open p = true)) as [E|E].
  - by rewrite E.
  - by destruct (open p).
Qed.

(** Along a run against a fixed network, the open ports still to be
    probed and the ports found open make up the open ports of the
    plan. *)
Lemma step_on_found open workers resbuf s s' :
  step_on open workers resbuf s s' ->
  openPending open s' ++ found s' ≡ₚ openPending open s ++ found s.
Proof.
  intros [Hstep Hprobe]. destruct Hstep; unfold openPending, found, set_pool in *; simpl in *.
  all: try match goal with
       | H : pool ?s !! ?i = Some (Probing ?p) |- _ =>
           destruct (Hprobe i p H) as [Ho Hc]; simpl in Ho, Hc;
           rewrite list_lookup_insert_eq in Ho, Hc by (by eapply lookup_lt_Some);
           try (specialize (Ho eq_refl)); try (specialize (Hc eq_refl))
       end.
  all: repeat match goal with
       | H : pool _ !! _ = Some _ |- context [<[ _ := ?w' ]> _] =>
           let X := fresh "X" in let H1 := fresh "H1" in let H2 := fresh "H2" in
           let Y := fresh "Y" in let H3 := fresh "H3" in let H4 := fresh "H4" in
           destruct (concat_map_insert (probingOpen open) _ _ _ w' H) as (X & H1 & H2);
           destruct (concat_map_insert sending _ _ _ w' H) as (Y & H3 & H4);
           rewrite H1, H2, H3, H4; clear H H1 H2 H3 H4
       | H : _ = _ |- _ => rewrite H; clear H
       end.
  all: rewrite ?filter_app, ?filter_open_cons; simpl.
  all: try match goal with |- context [if ?b then _ else _] => destruct b eqn:? end.
  all: simpl; try congruence; solve_Permutation.
Qed.

Lemma reachable_on_reachable open plan workers resbuf s :
  reachable_on open plan workers resbuf s -> reachable plan workers resbuf s.
Proof.
  unfold reachable_on, reachable. generalize (init plan workers). intros s0.
  induction 1 as [|s1 s2 s3 [Hstep _] _ IH]; [apply rtc_refl|].
  by eapply rtc_l.
Qed.

Lemma all_Receiving_nothing_held (g : wstate -> list Z) n :
  g Receiving = [] -> concat (map g (replicate n Receiving)) = [].
Proof. intros Hg. induction n as [|n IH]; [done|]. simpl. by rewrite Hg, IH. Qed.

Lemma reachable_on_found open plan workers resbuf s :
  reachable_on open plan workers resbuf s ->
  openPending open s ++ found s ≡ₚ filter (fun p => open p = true) plan.
Proof.
  unfold reachable_on. revert s.
  apply (rtc_ind_r (fun s => openPending open s ++ found s
                             ≡ₚ filter (fun p => open p = true) plan)).
  - unfold openPending, found, init. simpl.
    rewrite !(all_Receiving_nothing_held _ workers) by done. simpl. by rewrite !app_nil_r.
  - intros s1 s2 _ Hstep IH. by rewrite (step_on_found _ _ _ _ _ Hstep).
Qed.

Lemma all_Done_nothing_held (g : wstate -> list Z) pool :
  g Done = [] -> Forall (fun w => w = Done) pool -> concat (map g pool) = [].
Proof.
  intros Hg. induction 1 as [|w pool -> _ IH]; [done|]. simpl. by rewrite Hg, IH.
Qed.

(** When [main] has its slice, everything else has come to rest. *)
Lemma returned_drained plan workers resbuf s l :
  reachable plan workers resbuf s -> (0 < workers)%nat -> returned s = Some l ->
  feed s = [] /\ ports_ch s = [] /\ ports_closed s = true /\
  Forall (fun w => w = Done) (pool s) /\
  results_ch s = [] /\ results_closed s = true.
Proof.
  intros Hr Hw Hl.
  apply reachable_wellFormed in Hr as (Hlen & _ & _ & Hfeed & Hdone & Hclosed & Hret).
  destruct (Hret l Hl) as [Hrc Hres]. pose proof (Hclosed Hrc) as Hall.
  assert (Hin : Done ∈ pool s).
  { destruct (pool s) as [|w ws]; [simpl in Hlen; lia|].
    apply Forall_cons in Hall as [-> _]. by left. }
  destruct (Hdone Hin) as [Hpc Hch]. by rewrite (Hfeed Hpc).
Qed.

Lemma submseteq_NoDup_l (l k : list Z) : l ⊆+ k -> NoDup k -> NoDup l.
Proof.
  intros Hsub Hk. apply submseteq_sublist_l in Hsub as (k' & Hsl & Hperm).
  rewrite <- Hperm in Hk. by eapply sublist_NoDup.
Qed.

Lemma example_run_on : reachable_on only443 [80; 443] 1 1 example_final_on.
Proof.
  unfold reachable_on, init. simpl.
  assert (Hp : forall s s', (forall i p, pool s !! i = Some (Probing p) ->
              pool s' !! i = pool s !! i) -> probes_as only443 s s').
  { intros s s' Hsame i p Hi. rewrite (Hsame i p Hi), Hi. split; discriminate. }
  eapply rtc_l; [split; [eapply feeder_send; simpl; [reflexivity | lia] | by apply Hp]|]; simpl.
  eapply rtc_l; [split; [eapply (worker_recv _ _ _ 0%nat); reflexivity|]|]; simpl.
  { intros [|i] p Hi; simpl in *; discriminate. }
  eapply rtc_l; [split; [eapply feeder_send; simpl; [reflexivity | lia] | by apply Hp]|]; simpl.
  eapply rtc_l; [split; [eapply (worker_probe_closed _ _ _ 0%nat); reflexivity|]|]; simpl.
  { intros [|i] p Hi; simpl in *; [|discriminate]. injection Hi as <-. by split. }
  eapply rtc_l; [split; [eapply (worker_recv _ _ _ 0%nat); reflexivity|]|]; simpl.
  { intros [|i] p Hi; simpl in *; discriminate. }
  eapply rtc_l; [split; [eapply (worker_probe_open _ _ _ 0%nat); reflexivity|]|]; simpl.
  { intros [|i] p Hi; simpl in *; [|discriminate]. injection Hi as <-. by split. }
  eapply rtc_l; [split; [eapply (worker_send _ _ _ 0%nat); simpl; [reflexivity | lia]|]|]; simpl.
  { intros [|i] p Hi; simpl in *; discriminate. }
  eapply rtc_l; [split; [eapply main_recv; reflexivity | by apply Hp]|]; simpl.
  eapply rtc_l; [split; [eapply feeder_close; reflexivity | by apply Hp]|]; simpl.
  eapply rtc_l; [split; [eapply (worker_exit _ _ _ 0%nat); reflexivity|]|]; simpl.
  { intros [|i] p Hi; simpl in *; discriminate. }
  eapply rtc_l; [split; [eapply closer_close; simpl; [repeat constructor | reflexivity]
                        | by apply Hp]|]; simpl.
  eapply rtc_l; [split; [eapply main_sort; reflexivity | by apply Hp]|]; simpl.
  apply rtc_refl.
Qed.

End ScanMore.

(** X14: along every run, there are exactly [workers] worker
    goroutines, neither channel holds more than its capacity, and no
    goroutine is ever about to send on a closed channel (which would
    panic): [ports] is closed only once the feeder has nothing left to
    send, and [results] only once no worker is probing or sending. *)
Theorem X14_scan_channels_safe (plan : list Z) (workers resbuf : nat) (s : Scan.state) :
  Scan.reachable plan workers resbuf s ->
  length (Scan.pool s) = workers /\
  (length (Scan.ports_ch s) <= workers)%nat /\
  (length (Scan.results_ch s) <= resbuf)%nat /\
  (Scan.feed s <> [] -> Scan.ports_closed s = false) /\
  (forall i p, Scan.pool s !! i = Some (Scan.Probing p) \/
               Scan.pool s !! i = Some (Scan.Sending p) ->
               Scan.results_closed s = false).
Proof.
  intros H.
  apply ScanMore.reachable_wellFormed in H as (Hlen & Hpc & Hrc & Hfeed & _ & Hclosed & _).
  split; [done|]. split; [done|]. split; [done|]. split.
  - intros Hne. destruct (Scan.ports_closed s); [|done]. by destruct Hne; apply Hfeed.
  - intros i p Hi. destruct (Scan.results_closed s); [|done].
    specialize (Hclosed eq_refl).
    destruct Hi as [Hi|Hi];
      pose proof (ScanMore.Forall_Done_lookup _ _ _ Hclosed Hi); discriminate.
Qed.

Lemma X14_scan_channels_safe_witness :
  length (Scan.pool Scan.example_final) = 2%nat /\
  (length (Scan.ports_ch Scan.example_final) <= 2)%nat /\
  (length (Scan.results_ch Scan.example_final) <= 1)%nat /\
  (Scan.feed Scan.example_final <> [] -> Scan.ports_closed Scan.example_final = false) /\
  (forall i p, Scan.pool Scan.example_final !! i = Some (Scan.Probing p) \/
               Scan.pool Scan.example_final !! i = Some (Scan.Sending p) ->
               Scan.results_closed Scan.example_final = false).
Proof.
  apply (X14_scan_channels_safe [443; 80] 2 1 Scan.example_final ScanFacts.example_run).
Defined.

(** X15: [main] gets its sorted slice only when everything else has come
    to rest: the whole plan has been handed out, both channels are
    closed and empty, and every worker has returned; the slice is the
    sorted accumulator, and nothing of the plan is left anywhere else. *)
Theorem X15_scan_returns_drained (plan : list Z) (workers resbuf : nat)
    (s : Scan.state) (l : list Z) :
  Scan.reachable plan workers resbuf s ->
  (0 < workers)%nat ->
  Scan.returned s = Some l ->
  Scan.feed s = [] /\ Scan.ports_ch s = [] /\ Scan.ports_closed s = true /\
  Forall (fun w => w = Scan.Done) (Scan.pool s) /\
  Scan.results_ch s = [] /\ Scan.results_closed s = true /\
  l = sortInts (Scan.openPorts s) /\ Scan.in_flight s = Scan.openPorts s.
Proof.
  intros Hr Hw Hl.
  destruct (ScanMore.returned_drained _ _ _ _ _ Hr Hw Hl) as (H1 & H2 & H3 & H4 & H5 & H6).
  repeat (split; [done|]).
  apply ScanFacts.reachable_invariant in Hr as [_ Hret]. split; [by apply Hret|].
  unfold Scan.in_flight. rewrite H1, H2, H5.
  by rewrite (ScanMore.all_Done_nothing_held Scan.held).
Qed.

Lemma X15_scan_returns_drained_witness :
  Scan.feed Scan.example_final = [] /\ Scan.ports_ch Scan.example_final = [] /\
  Scan.ports_closed Scan.example_final = true /\
  Forall (fun w => w = Scan.Done) (Scan.pool Scan.example_final) /\
  Scan.results_ch Scan.example_final = [] /\ Scan.results_closed Scan.example_final = true /\
  [80; 443] = sortInts (Scan.openPorts Scan.example_final) /\
  Scan.in_flight Scan.example_final = Scan.openPorts Scan.example_final.
Proof.
  apply (X15_scan_returns_drained [443; 80] 2 1 Scan.example_final [80; 443]
           ScanFacts.example_run); [lia | reflexivity].
Defined.

(** X16: against a network in a fixed state, where [scanPort] answers
    [open p] for port [p], the slice [main] returns is the sorted list
    of the open ports of the plan, each as often as the plan has it:
    every port of the plan is probed, none is reported twice, and the
    number of workers, the buffer size and the order of the steps do
    not show in the result. *)
Theorem X16_scan_result_determined (open : Z -> bool) (plan : list Z)
    (workers resbuf : nat) (s : Scan.state) (l : list Z) :
  ScanOn.reachable_on open plan workers resbuf s ->
  (0 < workers)%nat ->
  Scan.returned s = Some l ->
  l = sortInts (filter (fun p => open p = true) plan).
Proof.
  intros Hon Hw Hl.
  pose proof (ScanMore.reachable_on_reachable _ _ _ _ _ Hon) as Hr.
  destruct (ScanMore.returned_drained _ _ _ _ _ Hr Hw Hl) as (H1 & H2 & _ & H4 & H5 & _).
  apply ScanMore.reachable_on_found in Hon.
  unfold ScanOn.openPending, ScanOn.found in Hon. rewrite H1, H2, H5 in Hon.
  rewrite (ScanMore.all_Done_nothing_held (ScanOn.probingOpen open)) in Hon by done.
  rewrite (ScanMore.all_Done_nothing_held ScanOn.sending) in Hon by done.
  simpl in Hon.
  apply ScanFacts.reachable_invariant in Hr as [_ Hret].
  rewrite (Hret l Hl). by apply sortInts_perm.
Qed.

Lemma X16_scan_result_determined_witness :
  [443] = sortInts (filter (fun p => ScanOn.only443 p = true) [80; 443]).
Proof.
  apply (X16_scan_result_determined ScanOn.only443 [80; 443] 1 1 ScanOn.example_final_on);
    [apply ScanMore.example_run_on | lia | reflexivity].
Defined.

(** X17: for flags that pass the checks of [main], the slice any run
    returns is strictly ascending (no port twice), within 1..65535, and
    a part of the plan: the count of open ports in the report never
    exceeds the number of targets. *)
Theorem X17_report_well_formed (f : Main.flags) (plan : list Z) (s : Scan.state)
    (l : list Z) :
  Main.scans f plan s ->
  Scan.returned s = Some l ->
  StronglySorted Z.lt l /\ l ⊆+ plan /\ (length l <= length plan)%nat /\
  Forall (fun p => 1 <= p <= 65535) l.
Proof.
  intros [Hplan Hr] Hl.
  apply plan_well_formed in Hplan as (_ & Hsorted & Hrange & _).
  apply ScanFacts.reachable_invariant in Hr as [Hsub Hret].
  assert (Hl' : l ⊆+ plan).
  { rewrite (Hret l Hl). etrans; [|etrans; [apply ScanFacts.openPorts_in_flight | done]].
    apply Permutation_submseteq, sortInts_Permutation. }
  split; [|split; [done|split; [by apply submseteq_length|]]].
  - apply sorted_le_NoDup_lt.
    + rewrite (Hret l Hl). apply sortInts_sorted.
    + eapply ScanMore.submseteq_NoDup_l; [exact Hl' | by apply sorted_lt_NoDup].
  - apply Forall_forall. intros p Hp. rewrite Forall_forall in Hrange.
    apply Hrange. by eapply elem_of_submseteq.
Qed.

Lemma X17_report_well_formed_witness :
  StronglySorted Z.lt [443] /\ [443] ⊆+ [80; 443] /\
  (length [443] <= length [80; 443])%nat /\ Forall (fun p => 1 <= p <= 65535) [443].
Proof.
  apply (X17_report_well_formed (Main.mkFlags 1 1024 1 1 (str "443,80")) [80; 443]
           ScanOn.example_final_on [443]).
  - split; [vm_compute; reflexivity|].
    apply (ScanMore.reachable_on_reachable ScanOn.only443), ScanMore.example_run_on.
  - reflexivity.
Defined.

(** X18: a scan always comes to an end.  No run from the initial state
    has more than [5 * length plan + workers + 3] steps; and with at
    least one worker and room for one result, as long as [main] has not
    returned some goroutine can take a step, so no run is stuck before
    [main] has its slice. *)
Theorem X18_scan_terminates (plan : list Z) (workers resbuf : nat) :
  (forall n s, nsteps (Scan.step workers resbuf) n (Scan.init plan workers) s ->
     (n <= 5 * length plan + workers + 3)%nat) /\
  ((0 < workers)%nat -> (0 < resbuf)%nat ->
   forall s, Scan.returned s = None -> exists s', Scan.step workers resbuf s s').
Proof.
  split.
  - intros n s Hrun. apply ScanFacts.run_length_bounded in Hrun.
    assert (Hinit : Scan.measure (Scan.init plan workers)
                    = (5 * length plan + workers + 3)%nat).
    { unfold Scan.measure, Scan.init. simpl.
      assert (Hsum : sum_list (map Scan.wweight (replicate workers Scan.Receiving)) = workers).
      { clear. induction workers as [|k IH]; [done|]. simpl. by rewrite IH. }
      rewrite Hsum. lia. }
    lia.
  - intros Hw Hr s Hs. by apply ScanFacts.step_progress.
Qed.

Lemma X18_scan_terminates_witness :
  exists s', Scan.step 1 1 (Scan.init [80] 1) s'.
Proof.
  apply (proj2 (X18_scan_terminates [80] 1 1)); [lia | lia | reflexivity].
Defined.
